(** * GroupAuth Dstack TEE agent ([agent/app.py])

    A shallow embedding of the agent script: identity derivation from the
    Dstack KMS, assembly of the registration proof, the guarded registration
    on the GroupAuth contract, and the [MemberRegistered] watcher loop.

    The script talks to three outside parties (the Dstack client, the
    JSON-RPC provider behind web3, the ECIES library) and keeps two module
    level variables ([onboarded], [last_block]).  Every outside call is a
    [Request] answered by an arbitrary handler over an abstract world, and
    any of them may raise; the module variables live in the machine state, so
    what they hold when an exception escapes is still visible.  Output on
    stdout is not modelled. *)

From Stdlib Require Import ZArith Strings.Ascii Strings.Byte.
From stdpp Require Import base decidable countable list strings gmap sets.

Open Scope Z_scope.

(** ** Python values *)

(** [bytes] objects (also [HexBytes], which compares and hashes as [bytes]). *)
Abbreviation bytes := (list byte).

#[global] Instance byte_eq_dec : EqDecision byte := Byte.byte_eq_dec.

#[global] Instance byte_countable : Countable byte :=
  inj_countable Byte.to_N Byte.of_N Byte.of_to_N.

(** Exceptions that end the script.  The first three are raised by the
    interpreter itself on the script's own lines, the last one stands for
    whatever a library call raises (its class name is kept). *)
Inductive exn :=
| IndexError
| ValueError
| AssertionError
| LibraryError (name : string).

Inductive outcome (A : Type) :=
| Ok (a : A)
| Raise (e : exn).
Arguments Ok {A} a.
Arguments Raise {A} e.

Definition outcome_bind {A B} (r : outcome A) (k : A → outcome B) : outcome B :=
  match r with Ok a => k a | Raise e => Raise e end.

(** *** [str.replace('0x', '')] *)

Fixpoint replace_0x (s : string) : string :=
  match s with
  | String "0" (String "x" rest) => replace_0x rest
  | String c rest => String c (replace_0x rest)
  | EmptyString => EmptyString
  end.

(** *** [bytes.fromhex] and [bytes.hex] *)

Definition hex_digit (c : ascii) : option N :=
  let n := N_of_ascii c in
  if ((48 <=? n) && (n <=? 57))%N then Some (n - 48)%N
  else if ((97 <=? n) && (n <=? 102))%N then Some (n - 87)%N
  else if ((65 <=? n) && (n <=? 70))%N then Some (n - 55)%N
  else None.

(** ASCII whitespace as [Py_ISSPACE] has it: space, \t, \n, \v, \f, \r. *)
Definition is_space (c : ascii) : bool :=
  let n := N_of_ascii c in ((n =? 32) || ((9 <=? n) && (n <=? 13)))%N.

Definition byte_of_nibbles (hi lo : N) : byte :=
  byte_of_ascii (ascii_of_N (16 * hi + lo)).

(** Whitespace is skipped between bytes, never inside one; anything that is
    not a pair of hexadecimal digits is a [ValueError] ([None] here). *)
Fixpoint fromhex (s : string) : option bytes :=
  match s with
  | EmptyString => Some []
  | String c rest =>
      if is_space c then fromhex rest
      else match hex_digit c, rest with
           | Some hi, String d rest' =>
               match hex_digit d with
               | Some lo => cons (byte_of_nibbles hi lo) <$> fromhex rest'
               | None => None
               end
           | _, _ => None
           end
  end.

Definition bytes_fromhex (s : string) : outcome bytes :=
  match fromhex s with Some b => Ok b | None => Raise ValueError end.

Definition hex_char (n : N) : ascii :=
  if (n <? 10)%N then ascii_of_N (48 + n) else ascii_of_N (87 + n).

Fixpoint bytes_hex (b : bytes) : string :=
  match b with
  | [] => EmptyString
  | x :: rest =>
      let n := Byte.to_N x in
      String (hex_char (n / 16)) (String (hex_char (n mod 16)) (bytes_hex rest))
  end.

(** The string does not start with the letter x. *)
Definition no_x (s : string) : Prop :=
  match s with
  | String "x" _ => False
  | _ => True
  end.

(** [str.encode()] and byte literals. *)
Definition encode (s : string) : bytes := byte_of_ascii <$> String.list_ascii_of_string s.

(** Sequencing of calls that either return or raise. *)
#[global] Instance outcome_ret : MRet outcome := @Ok.
#[global] Instance outcome_bind_inst : MBind outcome :=
  λ A B k r, outcome_bind r k.

(** Indexing a Python list with a constant non-negative index. *)
Definition index {A} (l : list A) (i : nat) : outcome A :=
  match l !! i with Some x => Ok x | None => Raise IndexError end.

(** ** Values exchanged with the outside *)

(** [client.info()]; only [app_id] is read. *)
Record InfoResponse := { info_app_id : string }.

(** [client.get_key(path, purpose)]. *)
Record GetKeyResponse := { key : string; signature_chain : list string }.

(** An [eth_account] local account: the private key it wraps and its address. *)
Record LocalAccount := { acct_key : bytes; address : string }.

(** The [dstackProof] tuple of the contract ABI, in the order of line 55. *)
Record DstackProof := {
  messageHash : bytes;
  messageSignature : bytes;
  appSignature : bytes;
  kmsSignature : bytes;
  derivedCompressedPubkey : bytes;
  appCompressedPubkey : bytes;
  purpose : string
}.

(** The two state-changing contract functions the agent calls. *)
Inductive ContractFunction :=
| registerDstack (codeId : bytes) (dstackProof : DstackProof)
| onboard (fromMemberId toMemberId encryptedPayload : bytes).

(** A built transaction: the fields the script sets, and the ones web3 fills
    in through the provider (chain id, fee fields). *)
Record Tx := {
  tx_fn : ContractFunction;
  tx_from : string;
  tx_nonce : Z;
  tx_gas : Z;
  tx_defaults : list (string * Z)
}.

(** [acct.sign_transaction(tx)]: the raw transaction is kept symbolic, as the
    transaction together with the key that signed it. *)
Record SignedTx := { raw_transaction : Tx; signed_with : bytes }.

Definition sign_transaction (acct : LocalAccount) (tx : Tx) : SignedTx :=
  {| raw_transaction := tx; signed_with := acct_key acct |}.

Record Receipt := { status : Z; gasUsed : Z }.

(** The tuple returned by [getMember]; index 1 is the compressed public key. *)
Record MemberInfo := { mi_codeId : bytes; mi_pubkey : bytes; mi_registeredAt : Z }.

(** A decoded [MemberRegistered] log entry. *)
Record LogEvent := {
  memberId : bytes;
  ev_codeId : bytes;
  ev_pubkey : bytes;
  blockNumber : Z
}.

(** ** Calls that leave the process *)

Inductive Request :=
| client_info
| client_get_key (path purpose_tag : string)
| isMember_call (id : bytes)
| getMember_call (id : bytes)
| get_transaction_count (addr : string)
| build_transaction (fn : ContractFunction) (from : string) (nonce gas : Z)
| send_raw_transaction (signed : SignedTx)
| wait_for_transaction_receipt (tx_hash : bytes)
| block_number
| MemberRegistered_get_logs (from_block to_block : Z)
| ecies_encrypt (recipient_pubkey data : bytes)
| serve_health (port : Z)
| time_sleep (seconds : Z).

Definition Response (r : Request) : Type :=
  match r with
  | client_info => InfoResponse
  | client_get_key _ _ => GetKeyResponse
  | isMember_call _ => bool
  | getMember_call _ => MemberInfo
  | get_transaction_count _ => Z
  | build_transaction _ _ _ _ => list (string * Z)
  | send_raw_transaction _ => bytes
  | wait_for_transaction_receipt _ => Receipt
  | block_number => Z
  | MemberRegistered_get_logs _ _ => list LogEvent
  | ecies_encrypt _ _ => bytes
  | serve_health _ => unit
  | time_sleep _ => unit
  end.

(** Requests that reach the ledger (the JSON-RPC provider). *)
Definition is_ledger_call (r : Request) : bool :=
  match r with
  | isMember_call _ | getMember_call _ | get_transaction_count _
  | build_transaction _ _ _ _ | send_raw_transaction _
  | wait_for_transaction_receipt _ | block_number
  | MemberRegistered_get_logs _ _ => true
  | _ => false
  end.

(** The contract function carried by a submitted transaction. *)
Definition submitted (r : Request) : option ContractFunction :=
  match r with
  | send_raw_transaction signed => Some (tx_fn (raw_transaction signed))
  | _ => None
  end.

Definition is_transaction (r : Request) : bool :=
  match submitted r with Some _ => true | None => false end.

Definition is_registration (r : Request) : bool :=
  match submitted r with Some (registerDstack _ _) => true | _ => false end.

(** An [onboard] transaction addressed to member [id]. *)
Definition is_onboarding_of (id : bytes) (r : Request) : bool :=
  match submitted r with
  | Some (onboard _ to _) => bool_decide (to = id)
  | _ => false
  end.

Definition is_get_logs (r : Request) : bool :=
  match r with MemberRegistered_get_logs _ _ => true | _ => false end.

(** ** The environment of one agent process

    The world answers every request and moves on; nothing is assumed about
    it.  The cryptographic libraries are deterministic functions that may
    raise.  The four settings read from [os.environ] at lines 13-16 are taken
    as already parsed. *)
Class Env := {
  World : Type;
  handle : ∀ r : Request, World → outcome (Response r) * World;
  keccak : bytes → bytes;
  Account_from_key : bytes → outcome LocalAccount;
  compressed_public_key : bytes → outcome bytes;
  recover_public_key_from_msg_hash : bytes → bytes → outcome bytes;
  unsafe_sign_hash : LocalAccount → bytes → outcome bytes;
  to_checksum_address : string → outcome string;
  check_arguments : ContractFunction → outcome unit;
  RPC_URL : string;
  GROUPAUTH_ADDRESS : string;
  GROUP_SECRET : string;
  POLL_INTERVAL : Z
}.

(** [Web3.solidity_keccak(["bytes"], values)]: the packed encoding of a
    [bytes] value is the value itself. *)
Definition solidity_keccak `{Env} (values : list bytes) : bytes :=
  keccak (concat values).

(** ** The machine: the world and the two module-level variables *)

Record Machine `{Env} := {
  world : World;
  onboarded : gset bytes;
  last_block : Z
}.

(** What running a piece of the script gives: its value or the exception
    that escaped, the machine it leaves, and the requests it made in order. *)
Record Out `{Env} (A : Type) := {
  res : outcome A;
  final : Machine;
  emitted : list Request
}.
Arguments res {_ A} _.
Arguments final {_ A} _.
Arguments emitted {_ A} _.

Definition M `{Env} (A : Type) : Type := Machine → Out A.

Section Script.
Context `{E : Env}.

Definition ret {A} (a : A) : M A :=
  λ m, {| res := Ok a; final := m; emitted := [] |}.

Definition raise {A} (e : exn) : M A :=
  λ m, {| res := Raise e; final := m; emitted := [] |}.

Definition bind {A B} (c : M A) (k : A → M B) : M B :=
  λ m,
    let o := c m in
    match res o with
    | Ok a =>
        let o' := k a (final o) in
        {| res := res o'; final := final o'; emitted := emitted o ++ emitted o' |}
    | Raise e => {| res := Raise e; final := final o; emitted := emitted o |}
    end.

#[global] Instance M_ret : MRet M := @ret.
#[global] Instance M_bind : MBind M := λ A B k c, bind c k.

(** A pure library call that may raise. *)
Definition lift {A} (r : outcome A) : M A :=
  match r with Ok a => ret a | Raise e => raise e end.

(** A call that leaves the process. *)
Definition request (r : Request) : M (Response r) :=
  λ m,
    let '(a, w) := handle r (world m) in
    {| res := a;
       final := {| world := w; onboarded := onboarded m; last_block := last_block m |};
       emitted := [r] |}.

Definition get_onboarded : M (gset bytes) :=
  λ m, {| res := Ok (onboarded m); final := m; emitted := [] |}.

Definition set_onboarded (s : gset bytes) : M unit :=
  λ m, {| res := Ok tt;
          final := {| world := world m; onboarded := s; last_block := last_block m |};
          emitted := [] |}.

Definition get_last_block : M Z :=
  λ m, {| res := Ok (last_block m); final := m; emitted := [] |}.

Definition set_last_block (b : Z) : M unit :=
  λ m, {| res := Ok tt;
          final := {| world := world m; onboarded := onboarded m; last_block := b |};
          emitted := [] |}.

(** [for x in l: body(x)]; [continue] is [ret tt] in the body. *)
Fixpoint for_each {A} (l : list A) (body : A → M unit) : M unit :=
  match l with
  | [] => ret tt
  | x :: rest => body x;; for_each rest body
  end.

(** ** Lines 26-71: identity and registration proof

    Everything the script computes between the two Dstack calls and the
    first contract call is local. *)
Record Agent := {
  app_id : string;
  derived_key : bytes;
  acct : LocalAccount;
  app_sig : bytes;
  kms_sig : bytes;
  derived_pubkey : bytes;
  app_pubkey : bytes;
  message_hash : bytes;
  message_sig : bytes;
  code_id : bytes;
  dstack_proof : DstackProof;
  kms_signer : bytes;
  ga : string;
  my_pubkey : bytes;
  my_member_id : bytes
}.

(** Line 33. *)
Definition derive_key (result : GetKeyResponse) : outcome bytes :=
  key_bytes ← bytes_fromhex (replace_0x (key result));
  Ok (take 32 key_bytes).

Definition assemble (info : InfoResponse) (result : GetKeyResponse) : outcome Agent :=
  let app_id := info_app_id info in
  derived_key ← derive_key result;
  acct ← Account_from_key derived_key;
  link0 ← index (signature_chain result) 0;
  app_sig ← bytes_fromhex (replace_0x link0);
  link1 ← index (signature_chain result) 1;
  kms_sig ← bytes_fromhex (replace_0x link1);
  derived_pubkey ← compressed_public_key derived_key;
  let app_msg := "ethereum:" +:+ bytes_hex derived_pubkey in
  let app_msg_hash := keccak (encode app_msg) in
  app_pubkey ← recover_public_key_from_msg_hash app_sig app_msg_hash;
  let message_hash := keccak (encode "groupauth-register") in
  let eth_hash :=
    keccak ([x19] ++ encode "Ethereum Signed Message:" ++ [x0a] ++ encode "32"
            ++ message_hash) in
  message_sig ← unsafe_sign_hash acct eth_hash;
  app_id_bytes20 ← bytes_fromhex (replace_0x app_id);
  let code_id := app_id_bytes20 ++ replicate 12 x00 in
  let dstack_proof :=
    {| messageHash := message_hash; messageSignature := message_sig;
       appSignature := app_sig; kmsSignature := kms_sig;
       derivedCompressedPubkey := derived_pubkey;
       appCompressedPubkey := app_pubkey; purpose := "ethereum" |} in
  let kms_msg := encode "dstack-kms-issued:" ++ app_id_bytes20 ++ app_pubkey in
  let kms_msg_hash := keccak kms_msg in
  kms_signer ← recover_public_key_from_msg_hash kms_sig kms_msg_hash;
  ga ← to_checksum_address GROUPAUTH_ADDRESS;
  let my_pubkey := derived_pubkey in
  let my_member_id := solidity_keccak [my_pubkey] in
  Ok {| app_id := app_id; derived_key := derived_key; acct := acct;
        app_sig := app_sig; kms_sig := kms_sig; derived_pubkey := derived_pubkey;
        app_pubkey := app_pubkey; message_hash := message_hash;
        message_sig := message_sig; code_id := code_id;
        dstack_proof := dstack_proof; kms_signer := kms_signer; ga := ga;
        my_pubkey := my_pubkey; my_member_id := my_member_id |}.

(** Lines 26-32 and the local work after them. *)
Definition identity : M Agent :=
  info ← request client_info;
  result ← request (client_get_key "/groupauth" "ethereum");
  lift (assemble info result).

(** ** Lines 73-83: registration, behind the [isMember] check *)

(** [fn.build_transaction({'from': acct.address, 'nonce': ..., 'gas': gas})],
    signed and sent (lines 76-80 and 119-123); gives the transaction hash. *)
Definition send_transaction (ag : Agent) (fn : ContractFunction) (gas : Z) : M bytes :=
  lift (check_arguments fn);;
  nonce ← request (get_transaction_count (address (acct ag)));
  defaults ← request (build_transaction fn (address (acct ag)) nonce gas);
  let tx := {| tx_fn := fn; tx_from := address (acct ag); tx_nonce := nonce;
               tx_gas := gas; tx_defaults := defaults |} in
  let signed := sign_transaction (acct ag) tx in
  request (send_raw_transaction signed).

Definition register (ag : Agent) : M unit :=
  is_member ← request (isMember_call (my_member_id ag));
  if is_member : bool then ret tt
  else
    tx_hash ← send_transaction ag (registerDstack (code_id ag) (dstack_proof ag)) 500000;
    receipt ← request (wait_for_transaction_receipt tx_hash);
    if status receipt =? 1 then ret tt else raise AssertionError.

(** Lines 26-83. *)
Definition startup : M Agent :=
  ag ← identity;
  register ag;;
  ret ag.

(** ** Lines 85-128: the watcher *)

(** Lines 85-105: the dedup set, the health endpoint, the first watermark. *)
Definition watcher_init : M unit :=
  set_onboarded ∅;;
  request (serve_health 8080);;
  head ← request block_number;
  set_last_block head.

(** The count the health endpoint reports (line 92). *)
Definition onboarded_count (m : Machine) : nat := size (onboarded m).

(** Lines 116-123: read the member's key, encrypt the group secret to it,
    send the [onboard] transaction. *)
Definition send_onboard (ag : Agent) (new_id : bytes) : M bytes :=
  member_info ← request (getMember_call new_id);
  let recipient_pubkey := mi_pubkey member_info in
  payload ← request (ecies_encrypt recipient_pubkey (encode GROUP_SECRET));
  send_transaction ag (onboard (my_member_id ag) new_id payload) 200000.

(** Lines 115-126: the body of the [for] loop after the skip guard.  The
    receipt is waited for and dropped. *)
Definition onboard_member (ag : Agent) (new_id : bytes) : M unit :=
  tx_hash ← send_onboard ag new_id;
  request (wait_for_transaction_receipt tx_hash);;
  s ← get_onboarded;
  set_onboarded ({[new_id]} ∪ s).

(** Lines 112-126: one event. *)
Definition handle_event (ag : Agent) (evt : LogEvent) : M unit :=
  let new_id := memberId evt in
  s ← get_onboarded;
  if bool_decide (new_id = my_member_id ag ∨ new_id ∈ s) then ret tt
  else onboard_member ag new_id.

(** Lines 108-128: one pass of the [while True] body. *)
Definition tick (ag : Agent) : M unit :=
  current_block ← request block_number;
  lb ← get_last_block;
  (if lb <? current_block then
     events ← request (MemberRegistered_get_logs (lb + 1) current_block);
     for_each events (handle_event ag);;
     set_last_block current_block
   else ret tt);;
  request (time_sleep POLL_INTERVAL).

(** [while True], unrolled [n] times; an exception ends it. *)
Fixpoint loop (ag : Agent) (n : nat) : M unit :=
  match n with
  | O => ret tt
  | S n' => tick ag;; loop ag n'
  end.

Definition watcher (ag : Agent) (n : nat) : M unit :=
  watcher_init;; loop ag n.

(** The whole script, with [n] passes of the loop. *)
Definition agent_main (n : nat) : M unit :=
  ag ← startup;
  watcher ag n.

(** The machine a fresh process starts from. *)
Definition boot (w : World) : Machine :=
  {| world := w; onboarded := ∅; last_block := 0 |}.

End Script.

(** ** Reading a run *)

Definition registrations (l : list Request) : nat :=
  length (List.filter is_registration l).

(** The status an uncaught exception gives the process. *)
Definition exit_code {A} (r : outcome A) : Z :=
  match r with Ok _ => 0 | Raise _ => 1 end.

Section Reading.
Context `{E : Env}.

(** The answer [isMember(my_member_id)] has in the world of [m]. *)
Definition is_member_at (ag : Agent) (m : Machine) : Prop :=
  (handle (isMember_call (my_member_id ag)) (world m)).1 = Ok true.

(** The [for] loop of a tick started in [m] gets the events
    [pre ++ evt :: post], handles [pre] without an exception, and comes to
    [evt] in machine [m_evt] with the skip guard false. *)
Definition reaches (ag : Agent) (m : Machine) (pre : list LogEvent)
    (evt : LogEvent) (post : list LogEvent) (m_evt : Machine) : Prop :=
  ∃ current_block w1 w2,
    handle block_number (world m) = (Ok current_block, w1) ∧
    last_block m < current_block ∧
    handle (MemberRegistered_get_logs (last_block m + 1) current_block) w1
      = (Ok (pre ++ evt :: post), w2) ∧
    res (for_each pre (handle_event ag)
           {| world := w2; onboarded := onboarded m; last_block := last_block m |})
      = Ok tt ∧
    m_evt = final (for_each pre (handle_event ag)
           {| world := w2; onboarded := onboarded m; last_block := last_block m |}) ∧
    memberId evt ≠ my_member_id ag ∧
    memberId evt ∉ onboarded m_evt.

(** The [onboard] transaction for [evt] was sent from [m_evt] and failed:
    its receipt reports a revert, or the wait for it timed out. *)
Definition onboarding_failed (ag : Agent) (evt : LogEvent) (m_evt : Machine) : Prop :=
  ∃ tx_hash,
    res (send_onboard ag (memberId evt) m_evt) = Ok tx_hash ∧
    match (handle (wait_for_transaction_receipt tx_hash)
             (world (final (send_onboard ag (memberId evt) m_evt)))).1 with
    | Ok receipt => status receipt ≠ 1
    | Raise _ => True
    end.

(** What the specification asks of a tick for an event whose onboarding
    failed: the tick completes, the member is not marked, the watermark
    stays below the event's block. *)
Definition retried_next_tick (ag : Agent) (m : Machine) (evt : LogEvent) : Prop :=
  res (tick ag m) = Ok tt ∧
  (memberId evt ∉ onboarded (final (tick ag m))) ∧
  last_block (final (tick ag m)) < blockNumber evt.

(** C1 as the specification words it, for the tick started in [m]. *)
Definition failure_is_retried (ag : Agent) (m : Machine) : Prop :=
  ∀ pre evt post m_evt,
    reaches ag m pre evt post m_evt →
    onboarding_failed ag evt m_evt →
    retried_next_tick ag m evt.

(** The event was skipped as the agent itself or as already onboarded
    before the tick, or its [onboard] transaction was sent and its member
    marked. *)
Definition settled (ag : Agent) (m m' : Machine) (l : list Request)
    (evt : LogEvent) : Prop :=
  memberId evt = my_member_id ag ∨
  memberId evt ∈ onboarded m ∨
  (Exists (λ q, is_onboarding_of (memberId evt) q = true) l ∧
   memberId evt ∈ onboarded m').

(** C2 as the specification words it, for the tick started in [m]: when
    encrypting to [evt]'s member fails, the tick completes, that member is
    not marked, and the events after it are still handled. *)
Definition encryption_failure_is_skipped (ag : Agent) (m : Machine) : Prop :=
  ∀ pre evt post m_evt member_info w1 e,
    reaches ag m pre evt post m_evt →
    handle (getMember_call (memberId evt)) (world m_evt) = (Ok member_info, w1) →
    (handle (ecies_encrypt (mi_pubkey member_info) (encode GROUP_SECRET)) w1).1
      = Raise e →
    res (tick ag m) = Ok tt ∧
    (memberId evt ∉ onboarded (final (tick ag m))) ∧
    ∀ other, other ∈ post →
      settled ag m (final (tick ag m)) (emitted (tick ag m)) other.

End Reading.

(** ** Outcomes

    The shapes in which the pieces of the script end, used to state what a
    run did. *)

Section Outcomes.
Context `{E : Env}.
Implicit Types (m : Machine) (ag : Agent) (evt : LogEvent) (id : bytes).

(** [wp c m Q]: running [c] from [m] ends in an outcome, a machine and a
    list of requests that satisfy [Q]. *)
Definition wp {A} (c : M A) m (Q : outcome A → Machine → list Request → Prop) : Prop :=
  Q (res (c m)) (final (c m)) (emitted (c m)).

(** What [send_transaction] leaves behind: the module variables untouched,
    nothing submitted but [fn], and [fn] submitted if a hash came back. *)
Definition sent (fn : ContractFunction) m (r : outcome bytes) m' (l : list Request) : Prop :=
  onboarded m' = onboarded m ∧
  last_block m' = last_block m ∧
  Forall (λ q, submitted q = None ∨ submitted q = Some fn) l ∧
  (∀ h, r = Ok h → Exists (λ q, submitted q = Some fn) l).

(** An [onboard] transaction, if [r] is one, is addressed to [id]. *)
Definition only_for id (r : Request) : Prop :=
  ∀ id', is_onboarding_of id' r = true → id' = id.

(** The three ways the loop body ends for an event. *)
Inductive event_outcome ag evt m (r : outcome unit) m' (l : list Request) : Prop :=
| event_skipped :
    memberId evt = my_member_id ag ∨ memberId evt ∈ onboarded m →
    r = Ok tt → m' = m → l = [] →
    event_outcome ag evt m r m' l
| event_onboarded :
    memberId evt ≠ my_member_id ag →
    memberId evt ∉ onboarded m →
    r = Ok tt →
    onboarded m' = {[memberId evt]} ∪ onboarded m →
    last_block m' = last_block m →
    Exists (λ q, is_onboarding_of (memberId evt) q = true) l →
    Forall (only_for (memberId evt)) l →
    event_outcome ag evt m r m' l
| event_raised e :
    memberId evt ≠ my_member_id ag →
    memberId evt ∉ onboarded m →
    r = Raise e →
    onboarded m' = onboarded m →
    last_block m' = last_block m →
    Forall (only_for (memberId evt)) l →
    event_outcome ag evt m r m' l.

(** How [onboard_member] ends: marked and sent, or raised and unmarked. *)
Definition member_outcome id m (r : outcome unit) m' (l : list Request) : Prop :=
  last_block m' = last_block m ∧
  Forall (only_for id) l ∧
  match r with
  | Ok _ =>
      onboarded m' = {[id]} ∪ onboarded m ∧
      Exists (λ q, is_onboarding_of id q = true) l
  | Raise _ => onboarded m' = onboarded m
  end.

(** No [onboard] transaction addressed to [id]. *)
Definition never_onboards id (l : list Request) : Prop :=
  Forall (λ q, is_onboarding_of id q = false) l.

(** What the [for] loop over [events] leaves, however it ends. *)
Record events_outcome ag (events : list LogEvent) m (r : outcome unit) m'
    (l : list Request) : Prop := {
  eo_last_block : last_block m' = last_block m;
  eo_grows : onboarded m ⊆ onboarded m';
  eo_not_self : my_member_id ag ∉ onboarded m → my_member_id ag ∉ onboarded m';
  eo_never_self : never_onboards (my_member_id ag) l;
  eo_new : ∀ id, id ∈ onboarded m' →
      id ∈ onboarded m ∨ Exists (λ q, is_onboarding_of id q = true) l;
  eo_all : r = Ok tt → ∀ evt, evt ∈ events →
      memberId evt = my_member_id ag ∨ memberId evt ∈ onboarded m';
  eo_marked : r = Ok tt → ∀ id,
      Exists (λ q, is_onboarding_of id q = true) l → id ∈ onboarded m'
}.

(** What one tick leaves, however it ends. *)
Record tick_outcome ag m (r : outcome unit) m' (l : list Request) : Prop := {
  to_monotone : last_block m ≤ last_block m';
  to_grows : onboarded m ⊆ onboarded m';
  to_not_self : my_member_id ag ∉ onboarded m → my_member_id ag ∉ onboarded m';
  to_never_self : never_onboards (my_member_id ag) l;
  to_advanced : last_block m < last_block m' →
    ∃ current_block w1 events w2,
      handle block_number (world m) = (Ok current_block, w1) ∧
      handle (MemberRegistered_get_logs (last_block m + 1) current_block) w1
        = (Ok events, w2) ∧
      last_block m' = current_block ∧
      ∀ evt, evt ∈ events → settled ag m m' l evt
}.

(** What any number of ticks leave. *)
Record loop_outcome ag m (r : outcome unit) m' (l : list Request) : Prop := {
  lo_monotone : last_block m ≤ last_block m';
  lo_grows : onboarded m ⊆ onboarded m';
  lo_not_self : my_member_id ag ∉ onboarded m → my_member_id ag ∉ onboarded m';
  lo_never_self : never_onboards (my_member_id ag) l
}.

End Outcomes.

(** ** Counting and ranges *)

(** How many [onboard] transactions among [l] are addressed to [id]. *)
Definition onboardings (id : bytes) (l : list Request) : nat :=
  length (List.filter (is_onboarding_of id) l).

(** How many transactions of any kind are among [l]. *)
Definition transactions (l : list Request) : nat :=
  length (List.filter is_transaction l).

(** The block ranges asked of [get_logs], in the order they were asked. *)
Fixpoint ranges (l : list Request) : list (Z * Z) :=
  match l with
  | [] => []
  | MemberRegistered_get_logs from_block to_block :: rest =>
      (from_block, to_block) :: ranges rest
  | _ :: rest => ranges rest
  end.

(** Each range starts one block after the previous one ended, the first one
    after [lb], and none is empty. *)
Fixpoint contiguous (lb : Z) (rs : list (Z * Z)) : Prop :=
  match rs with
  | [] => True
  | (from_block, to_block) :: rest =>
      from_block = lb + 1 ∧ from_block ≤ to_block ∧ contiguous to_block rest
  end.

(** The block the last range ends at, [lb] when there is none. *)
Fixpoint watermark_after (lb : Z) (rs : list (Z * Z)) : Z :=
  match rs with
  | [] => lb
  | (_, to_block) :: rest => watermark_after to_block rest
  end.

Section Runs.
Context `{E : Env}.
Implicit Types (m : Machine) (ag : Agent) (evt : LogEvent) (id : bytes).

Definition with_world m (w : World) : Machine :=
  {| world := w; onboarded := onboarded m; last_block := last_block m |}.

(** The five ways a tick goes: the block number read raises; there is no new
    block; the log read raises; the loop body raises at some event; the
    range is handled to its end and the tick sleeps. *)
Inductive tick_run ag m : Out unit → Prop :=
| tick_head_failed e w1 :
    handle block_number (world m) = (Raise e, w1) →
    tick_run ag m
      {| res := Raise e; final := with_world m w1; emitted := [block_number] |}
| tick_idle current_block w1 r w2 :
    handle block_number (world m) = (Ok current_block, w1) →
    current_block ≤ last_block m →
    handle (time_sleep POLL_INTERVAL) w1 = (r, w2) →
    tick_run ag m
      {| res := r; final := with_world m w2;
         emitted := [block_number; time_sleep POLL_INTERVAL] |}
| tick_logs_failed current_block w1 e w2 :
    handle block_number (world m) = (Ok current_block, w1) →
    last_block m < current_block →
    handle (MemberRegistered_get_logs (last_block m + 1) current_block) w1
      = (Raise e, w2) →
    tick_run ag m
      {| res := Raise e; final := with_world m w2;
         emitted := [block_number;
                     MemberRegistered_get_logs (last_block m + 1) current_block] |}
| tick_body_failed current_block w1 events w2 e :
    handle block_number (world m) = (Ok current_block, w1) →
    last_block m < current_block →
    handle (MemberRegistered_get_logs (last_block m + 1) current_block) w1
      = (Ok events, w2) →
    res (for_each events (handle_event ag) (with_world m w2)) = Raise e →
    tick_run ag m
      {| res := Raise e;
         final := final (for_each events (handle_event ag) (with_world m w2));
         emitted :=
           block_number
           :: MemberRegistered_get_logs (last_block m + 1) current_block
           :: emitted (for_each events (handle_event ag) (with_world m w2)) |}
| tick_completed current_block w1 events w2 r w3 :
    handle block_number (world m) = (Ok current_block, w1) →
    last_block m < current_block →
    handle (MemberRegistered_get_logs (last_block m + 1) current_block) w1
      = (Ok events, w2) →
    res (for_each events (handle_event ag) (with_world m w2)) = Ok tt →
    handle (time_sleep POLL_INTERVAL)
      (world (final (for_each events (handle_event ag) (with_world m w2))))
      = (r, w3) →
    tick_run ag m
      {| res := r;
         final :=
           {| world := w3;
              onboarded :=
                onboarded (final (for_each events (handle_event ag) (with_world m w2)));
              last_block := current_block |};
         emitted :=
           block_number
           :: MemberRegistered_get_logs (last_block m + 1) current_block
           :: emitted (for_each events (handle_event ag) (with_world m w2))
              ++ [time_sleep POLL_INTERVAL] |}.

(** The calls the loop body makes for an event: reads of the member, the
    encryption of the group secret, and an [onboard] transaction from the
    agent's own member id to another member, with the gas of line 120, built
    for and signed by the derived account. *)
Definition body_call ag (q : Request) : Prop :=
  match q with
  | getMember_call _ | wait_for_transaction_receipt _ => True
  | ecies_encrypt _ data => data = encode GROUP_SECRET
  | get_transaction_count addr => addr = address (acct ag)
  | build_transaction fn from _ gas =>
      from = address (acct ag) ∧ gas = 200000 ∧
      ∃ to payload, fn = onboard (my_member_id ag) to payload
  | send_raw_transaction signed =>
      signed_with signed = acct_key (acct ag) ∧
      tx_from (raw_transaction signed) = address (acct ag) ∧
      tx_gas (raw_transaction signed) = 200000 ∧
      ∃ to payload,
        tx_fn (raw_transaction signed) = onboard (my_member_id ag) to payload
  | _ => False
  end.

(** The calls the watcher loop makes. *)
Definition watcher_call ag (q : Request) : Prop :=
  q = block_number ∨ is_get_logs q = true ∨ q = time_sleep POLL_INTERVAL ∨
  body_call ag q.

(** What a stretch of the loop did about member [id], between dedup sets
    [s] and [s']: at most one [onboard] transaction to it, none when it was
    already marked or is the agent itself, and when one was sent and the
    stretch ended well the member is marked. *)
Definition once ag id (s : gset bytes) (r : outcome unit) (s' : gset bytes)
    (l : list Request) : Prop :=
  (onboardings id l ≤ 1)%nat ∧
  (id ∈ s → onboardings id l = 0%nat) ∧
  (id = my_member_id ag → onboardings id l = 0%nat) ∧
  (onboardings id l = 1%nat → r = Ok tt → id ∈ s') ∧
  s ⊆ s'.

(** Whoever is in [s'] was in [s] or was sent an [onboard] transaction. *)
Definition sent_if_marked (s s' : gset bytes) (l : list Request) : Prop :=
  ∀ id, id ∈ s' → id ∈ s ∨ Exists (λ q, is_onboarding_of id q = true) l.

(** Whoever is in [s'] was in [s] or is the member of one of [events], and
    is not the agent. *)
Definition marked_from ag (events : list LogEvent) (s s' : gset bytes) : Prop :=
  ∀ id, id ∈ s' →
    id ∈ s ∨ (id ≠ my_member_id ag ∧ ∃ evt, evt ∈ events ∧ memberId evt = id).

(** Every block number read in [l] comes directly after a sleep of
    [POLL_INTERVAL]; [prev] is the request made just before [l]. *)
Fixpoint paced (prev : Request) (l : list Request) : Prop :=
  match l with
  | [] => True
  | q :: rest =>
      (q = block_number → prev = time_sleep POLL_INTERVAL) ∧ paced q rest
  end.

(** From a world [P] holds of, [c] ends without an exception in a world [P]
    holds of. *)
Definition safe (P : World → Prop) {A} (c : M A) : Prop :=
  ∀ m, P (world m) → wp c m (λ r m' _, (∃ a, r = Ok a) ∧ P (world m')).

(** Every world [P] holds of answers every request without raising, and
    leaves a world [P] holds of. *)
Definition answers_all (P : World → Prop) : Prop :=
  ∀ (r : Request) w, P w →
    (∃ a, (handle r w).1 = Ok a) ∧ P (handle r w).2.

End Runs.

(** ** A scripted environment

    A world that never changes and answers from a fixed script; the
    cryptographic functions are stand-ins that keep the lengths right. *)
Module Scripted.

Record Script := {
  sc_key : string;
  sc_chain : list string;
  sc_is_member : bool;
  sc_head : Z;
  sc_logs : list LogEvent;
  sc_encrypt : bytes → outcome bytes;
  sc_receipt : outcome Receipt
}.

Definition in_range (from_block to_block : Z) (evt : LogEvent) : bool :=
  (from_block <=? blockNumber evt) && (blockNumber evt <=? to_block).

Definition answer (r : Request) (sc : Script) : outcome (Response r) * Script :=
  match r return outcome (Response r) * Script with
  | client_info =>
      (Ok {| info_app_id := "0x00112233445566778899aabbccddeeff00112233" |}, sc)
  | client_get_key _ _ => (Ok {| key := sc_key sc; signature_chain := sc_chain sc |}, sc)
  | isMember_call _ => (Ok (sc_is_member sc), sc)
  | getMember_call id =>
      (Ok {| mi_codeId := replicate 32 x00; mi_pubkey := x02 :: id; mi_registeredAt := 1 |}, sc)
  | get_transaction_count _ => (Ok 7, sc)
  | build_transaction _ _ _ _ => (Ok [("chainId"%string, 8453)], sc)
  | send_raw_transaction _ => (Ok (replicate 32 xee), sc)
  | wait_for_transaction_receipt _ => (sc_receipt sc, sc)
  | block_number => (Ok (sc_head sc), sc)
  | MemberRegistered_get_logs from_block to_block =>
      (Ok (filter (λ evt, in_range from_block to_block evt = true) (sc_logs sc)), sc)
  | ecies_encrypt pk _ => (sc_encrypt sc pk, sc)
  | serve_health _ => (Ok tt, sc)
  | time_sleep _ => (Ok tt, sc)
  end.

#[global] Instance env : Env := {|
  World := Script;
  handle := answer;
  keccak := λ b, take 32 (b ++ replicate 32 x00);
  Account_from_key := λ k,
    if (length k =? 32)%nat
    then Ok {| acct_key := k; address := "0xA9e47000000000000000000000000000000000a1" |}
    else Raise (LibraryError "ValueError");
  compressed_public_key := λ k, Ok (x02 :: k);
  recover_public_key_from_msg_hash := λ sig h, Ok (x03 :: h);
  unsafe_sign_hash := λ a h, Ok (h ++ [x1b]);
  to_checksum_address := Ok;
  check_arguments := λ _, Ok tt;
  RPC_URL := "https://mainnet.base.org";
  GROUPAUTH_ADDRESS := "0x00000000000000000000000000000000000000Aa";
  GROUP_SECRET := "default-group-secret";
  POLL_INTERVAL := 12
|}.

Definition key64 : string :=
  "0x1111111111111111111111111111111111111111111111111111111111111111".

(** The same 32 bytes followed by two more. *)
Definition key68 : string :=
  "0x1111111111111111111111111111111111111111111111111111111111111111beef".

Definition chain2 : list string := ["0xaa01"; "0xbb02"].
Definition chain1 : list string := ["0xaa01"].

Definition M1 : bytes := replicate 32 x01.
Definition M2 : bytes := replicate 32 x02.

Definition registered (id : bytes) (block : Z) : LogEvent :=
  {| memberId := id; ev_codeId := replicate 32 x00; ev_pubkey := x02 :: id;
     blockNumber := block |}.

Definition confirmed : outcome Receipt := Ok {| status := 1; gasUsed := 90000 |}.
Definition reverted : outcome Receipt := Ok {| status := 0; gasUsed := 30000 |}.
Definition timed_out : outcome Receipt := Raise (LibraryError "TimeExhausted").

(** The chain is at block 101; [M1] and [M2] registered in block 101. *)
Definition base : Script :=
  {| sc_key := key64; sc_chain := chain2; sc_is_member := true; sc_head := 101;
     sc_logs := [registered M1 101; registered M2 101];
     sc_encrypt := λ pk, Ok (pk ++ [xff]); sc_receipt := confirmed |}.

Definition with_receipt (r : outcome Receipt) : Script :=
  {| sc_key := key64; sc_chain := chain2; sc_is_member := true; sc_head := 101;
     sc_logs := [registered M1 101; registered M2 101];
     sc_encrypt := λ pk, Ok (pk ++ [xff]); sc_receipt := r |}.

(** [M1]'s recorded public key is rejected by the encryption library. *)
Definition bad_key_for_M1 : Script :=
  {| sc_key := key64; sc_chain := chain2; sc_is_member := true; sc_head := 101;
     sc_logs := [registered M1 101; registered M2 101];
     sc_encrypt := λ pk,
       if bool_decide (pk = x02 :: M1) then Raise (LibraryError "ValueError")
       else Ok (pk ++ [xff]);
     sc_receipt := confirmed |}.

Definition with_identity (k : string) (chain : list string) : Script :=
  {| sc_key := k; sc_chain := chain; sc_is_member := true; sc_head := 101;
     sc_logs := []; sc_encrypt := λ pk, Ok (pk ++ [xff]); sc_receipt := confirmed |}.

(** The agent the scripted Dstack answers give. *)
Definition agent : Agent :=
  match assemble {| info_app_id := "0x00112233445566778899aabbccddeeff00112233" |}
                 {| key := key64; signature_chain := chain2 |} with
  | Ok ag => ag
  | Raise _ =>
      {| app_id := ""; derived_key := []; acct := {| acct_key := []; address := "" |};
         app_sig := []; kms_sig := []; derived_pubkey := []; app_pubkey := [];
         message_hash := []; message_sig := []; code_id := [];
         dstack_proof := {| messageHash := []; messageSignature := [];
                            appSignature := []; kmsSignature := [];
                            derivedCompressedPubkey := []; appCompressedPubkey := [];
                            purpose := "" |};
         kms_signer := []; ga := ""; my_pubkey := []; my_member_id := [] |}
  end.

(** A machine whose watermark is [lb], with nobody onboarded yet. *)
Definition at_block (sc : Script) (lb : Z) : Machine :=
  {| world := sc; onboarded := ∅; last_block := lb |}.

End Scripted.

(** ** A chain that grows

    A second world for runs in which the head moves: every block number
    read answers the current height and the chain grows by one block, except
    at the height of the outage, where the provider cannot be reached.  Two
    members register, in blocks 102 and 104.  Everything else is answered as
    in [Scripted.base]. *)
Module Live.

Record Chain := { height : Z; outage : Z }.

Definition registrations_on_chain : list LogEvent :=
  [Scripted.registered Scripted.M1 102; Scripted.registered Scripted.M2 104].

Definition answer (r : Request) (c : Chain) : outcome (Response r) * Chain :=
  match r return outcome (Response r) * Chain with
  | block_number =>
      if height c =? outage c then (Raise (LibraryError "ConnectionError"), c)
      else (Ok (height c), {| height := height c + 1; outage := outage c |})
  | MemberRegistered_get_logs from_block to_block =>
      (Ok (filter (λ evt, Scripted.in_range from_block to_block evt = true)
             registrations_on_chain), c)
  | other => ((Scripted.answer other Scripted.base).1, c)
  end.

Definition env : Env := {|
  World := Chain;
  handle := answer;
  keccak := @keccak Scripted.env;
  Account_from_key := @Account_from_key Scripted.env;
  compressed_public_key := @compressed_public_key Scripted.env;
  recover_public_key_from_msg_hash := @recover_public_key_from_msg_hash Scripted.env;
  unsafe_sign_hash := @unsafe_sign_hash Scripted.env;
  to_checksum_address := @to_checksum_address Scripted.env;
  check_arguments := @check_arguments Scripted.env;
  RPC_URL := @RPC_URL Scripted.env;
  GROUPAUTH_ADDRESS := @GROUPAUTH_ADDRESS Scripted.env;
  GROUP_SECRET := @GROUP_SECRET Scripted.env;
  POLL_INTERVAL := @POLL_INTERVAL Scripted.env
|}.

(** A process started when the chain is at [h], the outage at [down]. *)
Definition started (h down : Z) : @Machine env :=
  {| world := {| height := h; outage := down |} : @World env;
     onboarded := ∅; last_block := 0 |}.

(** A watcher whose watermark is [lb], the chain at [h]. *)
Definition watching (lb h down : Z) : @Machine env :=
  {| world := {| height := h; outage := down |} : @World env;
     onboarded := ∅; last_block := lb |}.

(** The ledger does not know the agent yet; its registration gets [r]. *)
Definition unregistered (r : outcome Receipt) : Scripted.Script :=
  {| Scripted.sc_key := Scripted.key64; Scripted.sc_chain := Scripted.chain2;
     Scripted.sc_is_member := false; Scripted.sc_head := 101;
     Scripted.sc_logs := [];
     Scripted.sc_encrypt := λ pk, Ok (pk ++ [xff]);
     Scripted.sc_receipt := r |}.

End Live.

(** * Properties *)

Section Proofs.
Context `{E : Env}.
Implicit Types (m : Machine) (ag : Agent) (evt : LogEvent) (id : bytes).

(** ** Python values *)

Example fromhex_0x : bytes_fromhex (replace_0x "0x0aFf 10") = Ok [x0a; xff; x10].
Proof. reflexivity. Qed.

Example fromhex_odd : bytes_fromhex (replace_0x "0xabc") = Raise ValueError.
Proof. reflexivity. Qed.

Example replace_every_0x : replace_0x "0x000x1" = "001"%string.
Proof. reflexivity. Qed.

(** ** Sequencing *)

Lemma bind_ok {A B} (c : M A) (k : A → M B) m a :
  res (c m) = Ok a →
  (c ≫= k) m =
    {| res := res (k a (final (c m)));
       final := final (k a (final (c m)));
       emitted := emitted (c m) ++ emitted (k a (final (c m))) |}.
Proof. intros Hc. unfold mbind, M_bind, bind. by rewrite Hc. Qed.

Lemma bind_raise {A B} (c : M A) (k : A → M B) m e :
  res (c m) = Raise e →
  (c ≫= k) m = {| res := Raise e; final := final (c m); emitted := emitted (c m) |}.
Proof. intros Hc. unfold mbind, M_bind, bind. by rewrite Hc. Qed.

Lemma request_answer (r : Request) m a w :
  handle r (world m) = (a, w) →
  request r m =
    {| res := a;
       final := {| world := w; onboarded := onboarded m; last_block := last_block m |};
       emitted := [r] |}.
Proof. intros Hr. unfold request. by rewrite Hr. Qed.

Lemma for_each_app {A} (l1 l2 : list A) (body : A → M unit) m :
  for_each (l1 ++ l2) body m = (for_each l1 body;; for_each l2 body) m.
Proof.
  revert m. induction l1 as [|x l1 IH]; intros m.
  - simpl. unfold mbind, M_bind, bind, ret. simpl. by destruct (for_each l2 body m).
  - simpl. unfold mbind, M_bind, bind in *. destruct (res (body x m)) eqn:Hx; [|done].
    rewrite IH. destruct (res (for_each l1 body (final (body x m)))); simpl; [|done].
    by rewrite app_assoc.
Qed.

(** ** Reasoning along the script *)

Lemma wp_ret {A} (a : A) m Q : Q (Ok a) m [] → wp (mret a) m Q.
Proof. done. Qed.

Lemma wp_raise {A} e m (Q : outcome A → Machine → list Request → Prop) :
  Q (Raise e) m [] → wp (raise e) m Q.
Proof. done. Qed.

Lemma wp_lift {A} (r : outcome A) m Q : Q r m [] → wp (lift r) m Q.
Proof. by destruct r. Qed.

Lemma wp_bind {A B} (c : M A) (k : A → M B) m Q :
  wp c m (λ r m' l,
    match r with
    | Ok a => wp (k a) m' (λ r' m'' l', Q r' m'' (l ++ l'))
    | Raise e => Q (Raise e) m' l
    end) →
  wp (c ≫= k) m Q.
Proof.
  unfold wp, mbind, M_bind, bind. by destruct (res (c m)).
Qed.

Lemma wp_request (r : Request) m Q :
  (∀ a w, handle r (world m) = (a, w) →
     Q a {| world := w; onboarded := onboarded m; last_block := last_block m |} [r]) →
  wp (request r) m Q.
Proof.
  intros HQ. unfold wp, request. destruct (handle r (world m)) as [a w] eqn:Hr.
  by apply HQ.
Qed.

Lemma wp_get_onboarded m Q : Q (Ok (onboarded m)) m [] → wp get_onboarded m Q.
Proof. done. Qed.

Lemma wp_set_onboarded s m Q :
  Q (Ok tt) {| world := world m; onboarded := s; last_block := last_block m |} [] →
  wp (set_onboarded s) m Q.
Proof. done. Qed.

Lemma wp_get_last_block m Q : Q (Ok (last_block m)) m [] → wp get_last_block m Q.
Proof. done. Qed.

Lemma wp_set_last_block b m Q :
  Q (Ok tt) {| world := world m; onboarded := onboarded m; last_block := b |} [] →
  wp (set_last_block b) m Q.
Proof. done. Qed.

Lemma wp_mono {A} (c : M A) m (Q Q' : outcome A → Machine → list Request → Prop) :
  wp c m Q → (∀ r m' l, Q r m' l → Q' r m' l) → wp c m Q'.
Proof. unfold wp. auto. Qed.

(** One step along the script; a request leaves its answer to be split. *)
Ltac wp_rule :=
  lazymatch goal with
  | |- wp (_ ≫= _) _ _ => apply wp_bind
  | |- wp (mret _) _ _ => apply wp_ret
  | |- wp (ret _) _ _ => apply wp_ret
  | |- wp (raise _) _ _ => apply wp_raise
  | |- wp (lift ?r) _ _ =>
      let Hr := fresh "Hr" in
      destruct r as [?|?] eqn:Hr; apply wp_lift
  | |- wp (request ?r) ?m ?Q =>
      let a := fresh "a" in
      let w := fresh "w" in
      let Ha := fresh "Ha" in
      apply (wp_request r m Q); intros a w Ha;
      cbn [world onboarded last_block] in Ha; destruct a
  | |- wp get_onboarded _ _ => apply wp_get_onboarded
  | |- wp (set_onboarded _) _ _ => apply wp_set_onboarded
  | |- wp get_last_block _ _ => apply wp_get_last_block
  | |- wp (set_last_block _) _ _ => apply wp_set_last_block
  end.

Ltac wp_step := wp_rule; cbn beta iota zeta; cbn [world onboarded last_block].

Ltac wp_run := repeat wp_step.

(** ** Sending a transaction *)

Lemma send_transaction_sent ag fn gas m :
  wp (send_transaction ag fn gas) m (sent fn m).
Proof.
  unfold send_transaction. wp_run.
  all: unfold sent; cbn [onboarded last_block app].
  all: repeat split; try done.
  all: repeat first
         [ apply List.Forall_nil
         | apply List.Forall_cons; [first [by left | by right]|] ].
  intros h _. do 2 apply Exists_cons_tl. by apply Exists_cons_hd.
Qed.

(** ** One event *)

Lemma only_for_other id (q : Request) : submitted q = None → only_for id q.
Proof. intros Hq id'. unfold is_onboarding_of. by rewrite Hq. Qed.

Lemma only_for_onboard id from payload (q : Request) :
  submitted q = Some (onboard from id payload) → only_for id q.
Proof.
  intros Hq id'. unfold is_onboarding_of. rewrite Hq.
  by intros Hid%bool_decide_eq_true.
Qed.

Lemma sent_only_for id from payload (l : list Request) :
  Forall (λ q, submitted q = None ∨ submitted q = Some (onboard from id payload)) l →
  Forall (only_for id) l.
Proof.
  intros Hl. eapply Forall_impl; [exact Hl|]. intros q [Hq|Hq].
  - by apply only_for_other.
  - by eapply only_for_onboard.
Qed.

Lemma sent_onboarding id from payload (l : list Request) :
  Exists (λ q, submitted q = Some (onboard from id payload)) l →
  Exists (λ q, is_onboarding_of id q = true) l.
Proof.
  intros Hl. eapply Exists_impl; [exact Hl|]. intros q Hq. unfold is_onboarding_of. rewrite Hq.
  by apply bool_decide_eq_true.
Qed.

Lemma send_onboard_sent ag id m :
  wp (send_onboard ag id) m (λ r m' l,
    onboarded m' = onboarded m ∧
    last_block m' = last_block m ∧
    Forall (only_for id) l ∧
    (∀ h, r = Ok h → Exists (λ q, is_onboarding_of id q = true) l)).
Proof.
  unfold send_onboard. wp_step. wp_step; cbn beta iota.
  2: { repeat split; try done. repeat constructor. by apply only_for_other. }
  wp_step. wp_step; cbn beta iota.
  2: { repeat split; try done. repeat constructor; by apply only_for_other. }
  eapply wp_mono; [apply send_transaction_sent|].
  intros r m' l (Ho & Hb & Hall & Hex). cbn [onboarded last_block] in *.
  repeat split; try done.
  - apply Forall_app. split; [by repeat constructor; apply only_for_other|].
    apply Forall_app. split; [by repeat constructor; apply only_for_other|].
    by eapply sent_only_for.
  - intros h Hh. apply Exists_app. right. apply Exists_app. right.
    eapply sent_onboarding. by eapply Hex.
Qed.

Lemma onboard_member_outcome ag id m :
  wp (onboard_member ag id) m (member_outcome id m).
Proof.
  unfold onboard_member. wp_step.
  eapply wp_mono; [apply send_onboard_sent|].
  intros r m1 l1 (Ho & Hb & Hall & Hex). destruct r as [h|e].
  2: { by repeat split. }
  specialize (Hex h eq_refl).
  wp_step. wp_step.
  2: { repeat split; try done.
       apply Forall_app. split; [done|]. repeat constructor. by apply only_for_other. }
  wp_step. wp_step. wp_step.
  rewrite !app_nil_r. repeat split; try done.
  - apply Forall_app. split; [done|]. repeat constructor. by apply only_for_other.
  - by rewrite Ho.
  - apply Exists_app. by left.
Qed.

Lemma handle_event_outcome ag evt m :
  wp (handle_event ag evt) m (event_outcome ag evt m).
Proof.
  unfold handle_event. wp_step. wp_step.
  case_bool_decide as Hskip.
  { wp_step. rewrite app_nil_l. by apply event_skipped. }
  assert (Hne : memberId evt ≠ my_member_id ag) by tauto.
  assert (Hni : memberId evt ∉ onboarded m) by tauto.
  eapply wp_mono; [apply onboard_member_outcome|].
  intros r m1 l1 (Hb & Hall & Hr). rewrite app_nil_l. destruct r as [[]|e].
  - destruct Hr as [Ho Hex]. by eapply event_onboarded.
  - by eapply event_raised.
Qed.

(** ** The events of one range *)

Lemma only_for_never id id' (l : list Request) :
  id ≠ id' → Forall (only_for id) l → never_onboards id' l.
Proof.
  intros Hne Hl. eapply Forall_impl; [exact Hl|]. intros q Hq.
  destruct (is_onboarding_of id' q) eqn:Hq'; [|done].
  by apply Hq in Hq'.
Qed.

Lemma only_for_exists id id' (l : list Request) :
  Forall (only_for id) l → Exists (λ q, is_onboarding_of id' q = true) l → id' = id.
Proof.
  intros Hl (q & Hin & Hq)%Exists_exists.
  rewrite Forall_forall in Hl. by apply (Hl q Hin).
Qed.

Lemma for_each_outcome ag events m :
  wp (for_each events (handle_event ag)) m (events_outcome ag events m).
Proof.
  revert m. induction events as [|evt events IH]; intros m.
  { cbn [for_each]. apply wp_ret. split; try done; try by apply List.Forall_nil.
    - intros id Hid. by left.
    - intros _ evt Hevt. by apply elem_of_nil in Hevt.
    - intros _ id Hex. by apply Exists_nil in Hex. }
  cbn [for_each]. wp_step.
  eapply wp_mono; [apply handle_event_outcome|].
  intros r m1 l1 Hevt. 
  assert (H1 : events_outcome ag [evt] m r m1 l1).
  { destruct Hevt as [Hskip -> -> ->|Hne Hni -> Ho Hb Hex Hall|e Hne Hni -> Ho Hb Hall].
    - split; try done; try by apply List.Forall_nil.
      + intros id Hid. by left.
      + intros _ evt' ->%list_elem_of_singleton. done.
      + intros _ id Hex. by apply Exists_nil in Hex.
    - split; try done.
      + rewrite Ho. apply union_subseteq_r.
      + rewrite Ho. intros Hn [Heq%elem_of_singleton|Hin]%elem_of_union;
          [congruence|done].
      + by eapply only_for_never.
      + intros id. rewrite Ho. intros [->%elem_of_singleton|Hid]%elem_of_union; auto.
      + intros _ evt' ->%list_elem_of_singleton. right. rewrite Ho.
        by apply elem_of_union_l, elem_of_singleton.
      + intros _ id Hid. rewrite (only_for_exists _ _ _ Hall Hid), Ho.
        by apply elem_of_union_l, elem_of_singleton.
    - split; try done.
      + by rewrite Ho.
      + by rewrite Ho.
      + by eapply only_for_never.
      + intros id. rewrite Ho. auto. }
  destruct r as [[]|e].
  2: { destruct H1. split; try done. }
  eapply wp_mono; [apply IH|].
  intros r2 m2 l2 H2. destruct H1, H2. split.
  - congruence.
  - set_solver.
  - auto.
  - by apply Forall_app.
  - intros id Hid. destruct (eo_new1 id Hid) as [Hid1|Hex].
    + destruct (eo_new0 id Hid1) as [?|Hex]; [by left|].
      right. apply Exists_app. by left.
    + right. apply Exists_app. by right.
  - intros -> evt' [->|Hin]%elem_of_cons.
    + destruct (eo_all0 eq_refl evt) as [?|?]; [set_solver | by left | right; set_solver].
    + by apply eo_all1.
  - intros -> id [Hex|Hex]%Exists_app.
    + apply eo_grows1. by apply eo_marked0.
    + by apply eo_marked1.
Qed.

(** ** One tick *)

Lemma never_onboards_plain id (l : list Request) :
  Forall (λ q, submitted q = None) l → never_onboards id l.
Proof.
  intros Hl. eapply Forall_impl; [exact Hl|]. intros q Hq.
  unfold is_onboarding_of. by rewrite Hq.
Qed.

Lemma tick_unchanged ag m w (r : outcome unit) (l : list Request) :
  Forall (λ q, submitted q = None) l →
  tick_outcome ag m r
    {| world := w; onboarded := onboarded m; last_block := last_block m |} l.
Proof.
  intros Hl. split; cbn [onboarded last_block]; try done.
  - by apply never_onboards_plain.
  - lia.
Qed.

(** Close a [never_onboards] goal over a list pieced together with [++]. *)
Ltac solve_never :=
  unfold never_onboards in *; rewrite ?Forall_app; repeat split;
  first [ assumption
        | by apply List.Forall_nil
        | by apply never_onboards_plain; repeat constructor ].

Lemma tick_tick_outcome ag m :
  wp (tick ag) m (tick_outcome ag m).
Proof.
  unfold tick. wp_step. wp_step.
  2: { apply tick_unchanged. by repeat constructor. }
  rename a into current_block, w into w1, Ha into Hhead.
  wp_step. wp_step. wp_step.
  destruct (last_block m <? current_block) eqn:Hlt; cbn beta iota.
  2: { wp_step. wp_step; apply tick_unchanged; by repeat constructor. }
  apply Z.ltb_lt in Hlt.
  wp_step. wp_step.
  2: { apply tick_unchanged. by repeat constructor. }
  rename a into events, w into w2, Ha into Hlogs.
  wp_step. eapply wp_mono; [apply for_each_outcome|].
  intros r m3 l3 [Hb Hgrow Hself Hnever Hnew Hall Hmarked].
  cbn [onboarded last_block world] in *.
  destruct r as [[]|e].
  2: { split; cbn [onboarded last_block]; try done; try lia. solve_never. }
  wp_step. wp_step.
  all: split; cbn [onboarded last_block world]; try done; try lia.
  all: try solve_never.
  all: intros _; exists current_block, w1, events, w2; repeat split; try done.
  all: intros evt Hevt; unfold settled; cbn [onboarded].
  all: destruct (Hall eq_refl evt Hevt) as [?|Hin]; [by left|].
  all: destruct (Hnew _ Hin) as [?|Hex]; [by right; left|].
  all: right; right; split; [|done].
  all: rewrite ?Exists_app; tauto.
Qed.

(** ** The loop *)

Lemma loop_loop_outcome ag n m :
  wp (loop ag n) m (loop_outcome ag m).
Proof.
  revert m. induction n as [|n IH]; intros m.
  { cbn [loop]. apply wp_ret. split; try done. by apply List.Forall_nil. }
  cbn [loop]. wp_step. eapply wp_mono; [apply tick_tick_outcome|].
  intros r m1 l1 [Hmono Hgrow Hself Hnever _]. destruct r as [[]|e].
  2: { by split. }
  eapply wp_mono; [apply IH|].
  intros r2 m2 l2 [Hmono2 Hgrow2 Hself2 Hnever2]. split.
  - lia.
  - set_solver.
  - auto.
  - by apply Forall_app.
Qed.

(** ** Identity *)

(** Split on every step of a chain of calls that may raise. *)
Ltac split_steps H :=
  unfold mbind, outcome_bind_inst in H;
  repeat lazymatch type of H with
    | outcome_bind ?r _ = _ =>
        let Hr := fresh "Hstep" in
        destruct r eqn:Hr; cbn [outcome_bind] in H; [|discriminate H]
    end.

(** What a successful [assemble] fixes about the identity. *)
Lemma assemble_identity info result ag :
  assemble info result = Ok ag →
  derive_key result = Ok (derived_key ag) ∧
  compressed_public_key (derived_key ag) = Ok (derived_pubkey ag) ∧
  my_member_id ag = keccak (derived_pubkey ag).
Proof.
  intros Hag. unfold assemble in Hag. split_steps Hag.
  injection Hag as <-. cbn [derived_key derived_pubkey my_member_id].
  repeat split; try done.
  unfold solidity_keccak. cbn [concat]. by rewrite app_nil_r.
Qed.

(** With one link in the chain, line 38 is never passed. *)
Lemma assemble_short_chain info result :
  length (signature_chain result) = 1%nat →
  ∃ e, assemble info result = Raise e.
Proof.
  intros Hlen. destruct (assemble info result) as [ag|e] eqn:Hag; [|by eexists].
  exfalso. unfold assemble in Hag. unfold mbind, outcome_bind_inst in Hag.
  destruct (derive_key result); cbn [outcome_bind] in Hag; [|done].
  destruct (Account_from_key _); cbn [outcome_bind] in Hag; [|done].
  destruct (index (signature_chain result) 0); cbn [outcome_bind] in Hag; [|done].
  destruct (bytes_fromhex _); cbn [outcome_bind] in Hag; [|done].
  assert (Hidx : index (signature_chain result) 1 = Raise IndexError).
  { unfold index. rewrite lookup_ge_None_2; [done|]. rewrite Hlen. lia. }
  rewrite Hidx in Hag. done.
Qed.

Lemma identity_assemble m :
  wp identity m (λ r m' l,
    l = firstn (length l) [client_info; client_get_key "/groupauth" "ethereum"] ∧
    onboarded m' = onboarded m ∧ last_block m' = last_block m ∧
    ∀ ag, r = Ok ag →
      ∃ info w1 result,
        handle client_info (world m) = (Ok info, w1) ∧
        handle (client_get_key "/groupauth" "ethereum") w1 = (Ok result, world m') ∧
        assemble info result = Ok ag).
Proof.
  unfold identity. wp_step. wp_step.
  2: { done. }
  wp_step. wp_step.
  2: { done. }
  wp_step; repeat split; try done.
  intros ag [= ->]. by eexists _, _, _.
Qed.

(** ** Registration *)

Lemma registrations_app (l1 l2 : list Request) :
  registrations (l1 ++ l2) = (registrations l1 + registrations l2)%nat.
Proof. unfold registrations. by rewrite List.filter_app, length_app. Qed.

Lemma registrations_plain (l : list Request) :
  Forall (λ q, submitted q = None) l → registrations l = 0%nat.
Proof.
  unfold registrations. induction 1 as [|q l Hq _ IH]; [done|].
  cbn [List.filter]. unfold is_registration at 1. by rewrite Hq.
Qed.

Lemma send_transaction_once ag fn gas m :
  wp (send_transaction ag fn gas) m (λ _ _ l, (registrations l ≤ 1)%nat).
Proof.
  unfold send_transaction. wp_run.
  all: cbn [app]; unfold registrations, is_registration;
    cbn [List.filter submitted sign_transaction raw_transaction tx_fn length].
  all: try lia.
  all: destruct fn; cbn [length]; lia.
Qed.

Lemma register_once ag m :
  wp (register ag) m (λ r _ l,
    (registrations l ≤ 1)%nat ∧
    (is_member_at ag m → registrations l = 0%nat ∧ r = Ok tt)).
Proof.
  unfold register, is_member_at. wp_step. wp_step.
  2: { rewrite Ha. split; [cbn; lia|done]. }
  destruct a.
  { wp_step. split; [cbn; lia|done]. }
  wp_step. eapply wp_mono; [apply send_transaction_once|].
  intros r m1 l1 Hl1.
  assert (Hno : (handle (isMember_call (my_member_id ag)) (world m)).1 ≠ Ok true)
    by by rewrite Ha.
  destruct r as [h|e].
  2: { rewrite registrations_app. split; [cbn; lia|done]. }
  wp_step. wp_step.
  2: { rewrite !registrations_app. split; [cbn; lia|done]. }
  destruct (status a =? 1); wp_step.
  all: rewrite !registrations_app; split; [cbn; lia|done].
Qed.

Lemma startup_once m :
  (registrations (emitted (startup m)) ≤ 1)%nat ∧
  ((∀ ag, res (identity m) = Ok ag → is_member_at ag (final (identity m))) →
   registrations (emitted (startup m)) = 0%nat).
Proof.
  change (wp startup m (λ _ _ l,
    (registrations l ≤ 1)%nat ∧
    ((∀ ag, res (identity m) = Ok ag → is_member_at ag (final (identity m))) →
     registrations l = 0%nat))).
  unfold startup. wp_step. unfold wp at 1.
  assert (Hquiet : registrations (emitted (identity m)) = 0%nat).
  { apply registrations_plain. destruct (identity_assemble m) as (Hl & _).
    rewrite Hl. apply Forall_take. by repeat constructor. }
  destruct (res (identity m)) as [ag|e] eqn:Hres.
  2: { rewrite Hquiet. split; [lia|done]. }
  wp_step. eapply wp_mono; [apply register_once|].
  intros r m1 l1 [Hle Hmember]. destruct r as [[]|e]; try wp_step.
  all: rewrite !registrations_app, Hquiet, ?app_nil_r; split; [cbn; lia|].
  all: intros Hm; by destruct (Hmember (Hm ag eq_refl)) as [-> _].
Qed.

(** ** A tick that ends inside the loop body *)

Lemma wp_for_each_app {A} (l1 l2 : list A) (body : A → M unit) m Q :
  wp (for_each l1 body;; for_each l2 body) m Q →
  wp (for_each (l1 ++ l2) body) m Q.
Proof. unfold wp. by rewrite for_each_app. Qed.

Lemma handle_event_not_skipped ag evt m :
  memberId evt ≠ my_member_id ag →
  memberId evt ∉ onboarded m →
  handle_event ag evt m = onboard_member ag (memberId evt) m.
Proof.
  intros Hne Hni. unfold handle_event, mbind, M_bind, bind, get_onboarded.
  cbn [res final emitted]. rewrite bool_decide_eq_false_2 by tauto.
  by destruct (onboard_member ag (memberId evt) m).
Qed.

(** When the body raises at [evt], the tick ends there: with that
    exception, in the machine the body left, having made the two reads, the
    calls for the events before [evt], and the calls of the body. *)
Lemma tick_raises_at_event ag m pre evt post m_evt e :
  reaches ag m pre evt post m_evt →
  res (onboard_member ag (memberId evt) m_evt) = Raise e →
  res (tick ag m) = Raise e ∧
  final (tick ag m) = final (onboard_member ag (memberId evt) m_evt) ∧
  last_block m_evt = last_block m ∧
  ∃ reads l_pre,
    emitted (tick ag m)
      = reads ++ l_pre ++ emitted (onboard_member ag (memberId evt) m_evt) ∧
    Forall (λ q, submitted q = None) reads ∧
    ∀ id, Exists (λ q, is_onboarding_of id q = true) l_pre → id ∈ onboarded m_evt.
Proof.
  intros (current_block & w1 & w2 & Hhead & Hlt & Hlogs & Hpre & Hm_evt & Hne & Hni) Hraise.
  destruct (for_each_outcome ag pre
    {| world := w2; onboarded := onboarded m; last_block := last_block m |})
    as [Hb _ _ _ _ _ Hmarked].
  rewrite <- Hm_evt in Hb, Hmarked. cbn [last_block] in Hb.
  specialize (Hmarked Hpre).
  apply Z.ltb_lt in Hlt.
  change (wp (tick ag) m (λ r m' l,
    r = Raise e ∧ m' = final (onboard_member ag (memberId evt) m_evt) ∧
    last_block m_evt = last_block m ∧
    ∃ reads l_pre,
      l = reads ++ l_pre ++ emitted (onboard_member ag (memberId evt) m_evt) ∧
      Forall (λ q, submitted q = None) reads ∧
      ∀ id, Exists (λ q, is_onboarding_of id q = true) l_pre → id ∈ onboarded m_evt)).
  unfold tick. wp_step. wp_step; rewrite Hhead in Ha; simplify_eq.
  wp_step. wp_step. wp_step. rewrite Hlt.
  wp_step. wp_step; rewrite Hlogs in Ha; simplify_eq.
  wp_step. apply wp_for_each_app. wp_step.
  unfold wp at 1. rewrite Hpre.
  cbn [for_each]. wp_step.
  unfold wp. rewrite handle_event_not_skipped by done. rewrite Hraise.
  split; [done|]. split; [done|]. split; [done|].
  eexists [block_number; MemberRegistered_get_logs _ _], _.
  split; [|split; [by repeat constructor|exact Hmarked]].
  cbn [app]. by rewrite ?app_nil_r, ?app_nil_l.
Qed.

Lemma loop_raises ag n m e :
  res (tick ag m) = Raise e →
  res (loop ag (S n) m) = Raise e ∧
  final (loop ag (S n) m) = final (tick ag m) ∧
  emitted (loop ag (S n) m) = emitted (tick ag m).
Proof. intros Htick. cbn [loop]. by rewrite (bind_raise _ _ _ _ Htick). Qed.

Lemma never_onboards_not_exists id (l : list Request) :
  ¬ Exists (λ q, is_onboarding_of id q = true) l → never_onboards id l.
Proof.
  intros Hno. apply Forall_forall. intros q Hq.
  destruct (is_onboarding_of id q) eqn:Hid; [|done].
  exfalso. apply Hno. apply Exists_exists. by exists q.
Qed.

Lemma request_raises (r : Request) m e :
  (handle r (world m)).1 = Raise e →
  res (request r m) = Raise e ∧
  onboarded (final (request r m)) = onboarded m ∧
  last_block (final (request r m)) = last_block m ∧
  emitted (request r m) = [r].
Proof.
  unfold request. destruct (handle r (world m)) as [a w]. cbn [fst].
  by intros ->.
Qed.

(** ** The claims *)

(** C4 (watermark monotonicity).  A tick never lowers [last_block]; and when
    a tick raises it, the block number and the events it read are the ones
    the provider answered, and every event of the range was either skipped
    as the agent itself, skipped as already onboarded, or had its [onboard]
    transaction sent and its member marked. *)
Theorem watermark_monotone ag m :
  last_block m ≤ last_block (final (tick ag m)) ∧
  (last_block m < last_block (final (tick ag m)) →
   ∃ current_block w1 events w2,
     handle block_number (world m) = (Ok current_block, w1) ∧
     handle (MemberRegistered_get_logs (last_block m + 1) current_block) w1
       = (Ok events, w2) ∧
     last_block (final (tick ag m)) = current_block ∧
     ∀ evt, evt ∈ events →
       settled ag m (final (tick ag m)) (emitted (tick ag m)) evt).
Proof.
  destruct (tick_tick_outcome ag m) as [Hmono _ _ _ Hadv]. by split.
Qed.

(** C5 (no self-onboarding).  An event carrying the agent's own member id
    makes the loop body do nothing, and no run of the loop, of any length
    and from any state, sends an [onboard] transaction addressed to the
    agent's own member id. *)
Theorem no_self_onboarding ag :
  (∀ evt m, memberId evt = my_member_id ag →
     emitted (handle_event ag evt m) = [] ∧ final (handle_event ag evt m) = m) ∧
  (∀ n m, never_onboards (my_member_id ag) (emitted (loop ag n m))).
Proof.
  split.
  - intros evt m Hself. unfold handle_event, mbind, M_bind, bind, get_onboarded.
    cbn [res final emitted]. rewrite bool_decide_eq_true_2 by by left. done.
  - intros n m. by destruct (loop_loop_outcome ag n m).
Qed.

(** C10 (the agent is never in its own dedup set).  The watcher starts the
    set empty, and after any number of ticks the agent's own member id is
    not in it, so the count the health endpoint reports never includes the
    agent. *)
Theorem self_never_onboarded ag n m :
  onboarded (final (watcher_init m)) = ∅ ∧
  (my_member_id ag ∉ onboarded (final (watcher ag n m))) ∧
  onboarded_count (final (watcher ag n m))
    = size (onboarded (final (watcher ag n m)) ∖ {[my_member_id ag]}).
Proof.
  assert (Hinit : wp watcher_init m (λ _ m' _, onboarded m' = ∅)).
  { unfold watcher_init. wp_run; done. }
  assert (Hw : my_member_id ag ∉ onboarded (final (watcher ag n m))).
  { change (wp (watcher ag n) m (λ _ m' _, my_member_id ag ∉ onboarded m')).
    unfold watcher. wp_step. eapply wp_mono; [apply Hinit|].
    intros r m1 l1 Hempty. destruct r as [[]|e].
    2: { rewrite Hempty. set_solver. }
    eapply wp_mono; [apply loop_loop_outcome|].
    intros r2 m2 l2 [_ _ Hself _]. apply Hself. rewrite Hempty. set_solver. }
  split; [exact Hinit|]. split; [exact Hw|].
  unfold onboarded_count. f_equal. symmetry.
  by apply difference_disjoint_L, disjoint_singleton_r.
Qed.

(** C6 (no new block, no work).  When the block number a tick reads is not
    above [last_block], the tick makes exactly two calls, the block number
    read and the sleep: it fetches no events, sends no transaction, and
    leaves [last_block] and [onboarded] as they were. *)
Theorem idle_tick ag m current_block w1 :
  handle block_number (world m) = (Ok current_block, w1) →
  current_block ≤ last_block m →
  emitted (tick ag m) = [block_number; time_sleep POLL_INTERVAL] ∧
  Forall (λ q, is_transaction q = false ∧ is_get_logs q = false) (emitted (tick ag m)) ∧
  last_block (final (tick ag m)) = last_block m ∧
  onboarded (final (tick ag m)) = onboarded m.
Proof.
  intros Hhead Hle.
  assert (Hlt : (last_block m <? current_block) = false) by by apply Z.ltb_ge.
  assert (Htick : wp (tick ag) m (λ _ m' l,
    l = [block_number; time_sleep POLL_INTERVAL] ∧
    last_block m' = last_block m ∧ onboarded m' = onboarded m)).
  { unfold tick. wp_step. wp_step; rewrite Hhead in Ha; simplify_eq.
    wp_step. wp_step. wp_step. rewrite Hlt. wp_step. wp_step; done. }
  destruct Htick as (Hl & Hb & Ho). repeat split; try done.
  rewrite Hl. by repeat constructor.
Qed.

(** C7 (a one-link chain is fatal before any ledger call).  When the Dstack
    client answers [get_key] with a signature chain of length 1, the script
    ends with an uncaught exception, so the process exits non-zero, after
    the two Dstack calls and nothing else: no call reaches the ledger. *)
Theorem short_chain_is_fatal n m info w1 result w2 :
  handle client_info (world m) = (Ok info, w1) →
  handle (client_get_key "/groupauth" "ethereum") w1 = (Ok result, w2) →
  length (signature_chain result) = 1%nat →
  (∃ e, res (agent_main n m) = Raise e) ∧
  exit_code (res (agent_main n m)) ≠ 0 ∧
  emitted (agent_main n m) = [client_info; client_get_key "/groupauth" "ethereum"] ∧
  Forall (λ q, is_ledger_call q = false) (emitted (agent_main n m)).
Proof.
  intros Hinfo Hkey Hlen.
  destruct (assemble_short_chain info result Hlen) as [e He].
  assert (Hmain : wp (agent_main n) m (λ r _ l,
    r = Raise e ∧ l = [client_info; client_get_key "/groupauth" "ethereum"])).
  { unfold agent_main, startup, identity. wp_step. wp_step. wp_step.
    wp_step; rewrite Hinfo in Ha; simplify_eq.
    wp_step. wp_step; rewrite Hkey in Ha; simplify_eq.
    rewrite He. by apply wp_raise. }
  destruct Hmain as [Hr Hl]. rewrite Hr, Hl. repeat split.
  - by exists e.
  - done.
  - by repeat constructor.
Qed.

(** C8 (deterministic member id).  Whatever the run, the member id the
    script computes is the keccak hash of the compressed public key, a
    32-byte value since keccak digests are 32 bytes long; two runs that
    derive the same public key compute the same member id. *)
Theorem member_id_deterministic m m' ag ag' :
  (∀ b, length (keccak b) = 32%nat) →
  res (identity m) = Ok ag →
  res (identity m') = Ok ag' →
  derived_pubkey ag = derived_pubkey ag' →
  my_member_id ag = keccak (derived_pubkey ag) ∧
  length (my_member_id ag) = 32%nat ∧
  my_member_id ag' = my_member_id ag.
Proof.
  intros Hlen Hag Hag' Hpk.
  destruct (identity_assemble m) as (_ & _ & _ & Hm).
  destruct (identity_assemble m') as (_ & _ & _ & Hm').
  destruct (Hm ag Hag) as (info & ? & result & _ & _ & Has).
  destruct (Hm' ag' Hag') as (info' & ? & result' & _ & _ & Has').
  apply assemble_identity in Has as (_ & _ & Hid).
  apply assemble_identity in Has' as (_ & _ & Hid').
  rewrite Hid, Hid', Hpk. by repeat split.
Qed.

(** C9 (a long key is truncated, not rejected).  When the key the Dstack
    client returns decodes to more than 32 bytes, line 33 keeps its first
    32 bytes and raises nothing; and two answers whose keys agree on their
    first 32 bytes give the same derived key, the same public key and the
    same member id. *)
Theorem long_key_truncated result key_bytes :
  bytes_fromhex (replace_0x (key result)) = Ok key_bytes →
  (32 < length key_bytes)%nat →
  derive_key result = Ok (take 32 key_bytes) ∧
  length (take 32 key_bytes) = 32%nat ∧
  take 32 key_bytes ≠ key_bytes ∧
  ∀ info info' result' key_bytes' ag ag',
    bytes_fromhex (replace_0x (key result')) = Ok key_bytes' →
    take 32 key_bytes' = take 32 key_bytes →
    assemble info result = Ok ag →
    assemble info' result' = Ok ag' →
    derived_key ag = take 32 key_bytes ∧
    derived_key ag' = derived_key ag ∧
    derived_pubkey ag' = derived_pubkey ag ∧
    my_member_id ag' = my_member_id ag.
Proof.
  intros Hkey Hlong.
  assert (Hd : derive_key result = Ok (take 32 key_bytes)).
  { unfold derive_key. by rewrite Hkey. }
  assert (Hlen : length (take 32 key_bytes) = 32%nat).
  { rewrite length_take. lia. }
  split; [done|]. split; [done|]. split.
  { intros Heq. rewrite <- Heq in Hlong. lia. }
  intros info info' result' key_bytes' ag ag' Hkey' Hsame Hag Hag'.
  apply assemble_identity in Hag as (Hk & Hpk & Hid).
  apply assemble_identity in Hag' as (Hk' & Hpk' & Hid').
  assert (Hd' : derive_key result' = Ok (take 32 key_bytes)).
  { unfold derive_key. rewrite Hkey'. cbn [mbind outcome_bind_inst outcome_bind].
    by rewrite Hsame. }
  assert (Hdk : derived_key ag = take 32 key_bytes) by congruence.
  assert (Hdk' : derived_key ag' = take 32 key_bytes) by congruence.
  assert (Hpks : derived_pubkey ag' = derived_pubkey ag) by congruence.
  repeat split; congruence.
Qed.

(** C3 (registration behind the membership check).  A startup that finds
    [isMember(my_member_id)] true sends no registration transaction; any
    startup sends at most one; so two startups, the second of which finds
    the agent registered, send at most one between them. *)
Theorem registration_idempotent m :
  (∀ ag, res (identity m) = Ok ag → is_member_at ag (final (identity m))) →
  registrations (emitted (startup m)) = 0%nat ∧
  (registrations (emitted (startup m) ++ emitted (startup m)) ≤ 1)%nat ∧
  ∀ m0, (registrations (emitted (startup m0) ++ emitted (startup m)) ≤ 1)%nat.
Proof.
  intros Hmember. destruct (startup_once m) as [_ Hzero].
  specialize (Hzero Hmember). split; [done|].
  split; [|intros m0; destruct (startup_once m0) as [Hle _]].
  all: rewrite registrations_app; lia.
Qed.

(** C1, as the code has it.  When the wait for the receipt of an event's
    [onboard] transaction raises (a timeout), the exception is not caught:
    the tick ends with it, the member is not in [onboarded], [last_block]
    keeps the value it had before the tick, and the loop ends with the same
    exception in the same state, so no later tick runs. *)
Theorem receipt_timeout_ends_loop ag m pre evt post m_evt tx_hash e n :
  reaches ag m pre evt post m_evt →
  res (send_onboard ag (memberId evt) m_evt) = Ok tx_hash →
  (handle (wait_for_transaction_receipt tx_hash)
     (world (final (send_onboard ag (memberId evt) m_evt)))).1 = Raise e →
  res (tick ag m) = Raise e ∧
  (memberId evt ∉ onboarded (final (tick ag m))) ∧
  last_block (final (tick ag m)) = last_block m ∧
  res (loop ag (S n) m) = Raise e ∧
  final (loop ag (S n) m) = final (tick ag m) ∧
  emitted (loop ag (S n) m) = emitted (tick ag m).
Proof.
  intros Hreach Hsend Hwait.
  assert (Hraise : res (onboard_member ag (memberId evt) m_evt) = Raise e).
  { unfold onboard_member. rewrite (bind_ok _ _ _ _ Hsend). cbn [res].
    apply request_raises in Hwait as (Hwait & _).
    by rewrite (bind_raise _ _ _ _ Hwait). }
  destruct (tick_raises_at_event _ _ _ _ _ _ _ Hreach Hraise) as (Hres & Hfinal & Hb & _).
  destruct (onboard_member_outcome ag (memberId evt) m_evt) as (Hb' & _ & Ho).
  rewrite Hraise in Ho.
  destruct Hreach as (_ & _ & _ & _ & _ & _ & _ & _ & _ & Hni).
  destruct (loop_raises ag n m e Hres) as (Hl1 & Hl2 & Hl3).
  split; [done|]. split; [by rewrite Hfinal, Ho|].
  split; [by rewrite Hfinal, Hb'|]. done.
Qed.

(** C2, as the code has it.  When encrypting the group secret to an event's
    member raises, the exception is not caught: the tick ends with it, no
    [onboard] transaction has been sent to that member and it is not in
    [onboarded]; the events after it are not handled (no member that was
    not already in [onboarded] is sent a transaction or marked),
    [last_block] is not advanced, and the loop ends with the same
    exception. *)
Theorem encryption_failure_ends_loop ag m pre evt post m_evt member_info w1 e n :
  reaches ag m pre evt post m_evt →
  handle (getMember_call (memberId evt)) (world m_evt) = (Ok member_info, w1) →
  (handle (ecies_encrypt (mi_pubkey member_info) (encode GROUP_SECRET)) w1).1 = Raise e →
  res (tick ag m) = Raise e ∧
  never_onboards (memberId evt) (emitted (tick ag m)) ∧
  (memberId evt ∉ onboarded (final (tick ag m))) ∧
  (∀ other, other ∈ post → memberId other ∉ onboarded m_evt →
     never_onboards (memberId other) (emitted (tick ag m)) ∧
     memberId other ∉ onboarded (final (tick ag m))) ∧
  last_block (final (tick ag m)) = last_block m ∧
  res (loop ag (S n) m) = Raise e ∧
  final (loop ag (S n) m) = final (tick ag m).
Proof.
  intros Hreach Hmember Hencrypt.
  assert (Hbody : wp (onboard_member ag (memberId evt)) m_evt (λ r m' l,
    r = Raise e ∧ onboarded m' = onboarded m_evt ∧
    Forall (λ q, submitted q = None) l)).
  { unfold onboard_member, send_onboard. wp_step. wp_step.
    wp_step; rewrite Hmember in Ha; simplify_eq.
    wp_step. wp_step; rewrite Ha in Hencrypt; cbn [fst] in Hencrypt; simplify_eq.
    repeat split; try done. by repeat constructor. }
  destruct Hbody as (Hraise & Ho & Hplain).
  destruct (tick_raises_at_event _ _ _ _ _ _ _ Hreach Hraise)
    as (Hres & Hfinal & Hb & reads & l_pre & Hl & Hreads & Hmarked).
  destruct (onboard_member_outcome ag (memberId evt) m_evt) as (Hb' & _ & _).
  assert (Hnever : ∀ id, id ∉ onboarded m_evt →
    never_onboards id (emitted (tick ag m)) ∧ id ∉ onboarded (final (tick ag m))).
  { intros id Hid. rewrite Hl, Hfinal, Ho. split; [|done].
    apply Forall_app. split; [by apply never_onboards_plain|].
    apply Forall_app. split; [|by apply never_onboards_plain].
    apply never_onboards_not_exists. intros Hex. by apply Hid, Hmarked. }
  destruct Hreach as (_ & _ & _ & _ & _ & _ & _ & _ & _ & Hni).
  destruct (Hnever _ Hni) as [Hn1 Hn2].
  destruct (loop_raises ag n m e Hres) as (Hl1 & Hl2 & _).
  split; [done|]. split; [done|]. split; [done|].
  split; [intros other _ Hother; by apply Hnever|].
  split; [by rewrite Hfinal, Hb'|]. done.
Qed.

(** ** Further properties

    *** The shape of a tick *)

Lemma request_at (r : Request) w0 s b a w :
  handle r w0 = (a, w) →
  request r {| world := w0; onboarded := s; last_block := b |} =
    {| res := a; final := {| world := w; onboarded := s; last_block := b |};
       emitted := [r] |}.
Proof. intros Hr. unfold request. cbn [world]. by rewrite Hr. Qed.

Lemma tick_runs ag m : tick_run ag m (tick ag m).
Proof.
  unfold tick, mbind, M_bind, bind, get_last_block, set_last_block, ret.
  destruct (handle block_number (world m)) as [[current_block|e] w1] eqn:Hhead;
    rewrite (request_answer _ _ _ _ Hhead);
    cbn [res final emitted world onboarded last_block app].
  2: { by apply tick_head_failed. }
  destruct (last_block m <? current_block) eqn:Hlt;
    cbn [res final emitted world onboarded last_block app].
  2: { apply Z.ltb_ge in Hlt.
       destruct (handle (time_sleep POLL_INTERVAL) w1) as [r w2] eqn:Hsleep.
       rewrite (request_at _ _ _ _ _ _ Hsleep). cbn [res final emitted].
       by eapply tick_idle. }
  apply Z.ltb_lt in Hlt.
  destruct (handle (MemberRegistered_get_logs (last_block m + 1) current_block) w1)
    as [[events|e] w2] eqn:Hlogs;
    rewrite (request_at _ _ _ _ _ _ Hlogs);
    cbn [res final emitted world onboarded last_block app].
  2: { by eapply tick_logs_failed. }
  fold (with_world m w2).
  destruct (res (for_each events (handle_event ag) (with_world m w2))) as [[]|e] eqn:Hbody;
    cbn [res final emitted world onboarded last_block app].
  2: { by eapply tick_body_failed. }
  set (f := for_each events (handle_event ag) (with_world m w2)) in *.
  destruct (handle (time_sleep POLL_INTERVAL) (world (final f))) as [r w3] eqn:Hsleep.
  rewrite (request_at _ _ _ _ _ _ Hsleep). cbn [res final emitted].
  rewrite !app_nil_r.
  by eapply tick_completed.
Qed.

(** *** What the loop body asks for *)

Lemma onboard_member_calls ag id m :
  wp (onboard_member ag id) m (λ _ _ l, Forall (body_call ag) l ∧ (transactions l ≤ 1)%nat).
Proof.
  unfold onboard_member, send_onboard, send_transaction. wp_run.
  all: cbn [app]; split;
    [ repeat (apply List.Forall_cons || apply List.Forall_nil);
      cbn [body_call sign_transaction signed_with raw_transaction tx_from tx_gas tx_fn];
      repeat split; eauto
    | unfold transactions, is_transaction;
      cbn [List.filter submitted length]; lia ].
Qed.

Lemma handle_event_calls ag evt m :
  wp (handle_event ag evt) m (λ _ _ l, Forall (body_call ag) l ∧ (transactions l ≤ 1)%nat).
Proof.
  unfold handle_event. wp_step. wp_step. case_bool_decide.
  - wp_step. split; [by apply List.Forall_nil|cbn; lia].
  - eapply wp_mono; [apply onboard_member_calls|]. by intros r m' l [Hl Ht].
Qed.

Lemma for_each_calls ag events m :
  wp (for_each events (handle_event ag)) m (λ _ _ l, Forall (body_call ag) l).
Proof.
  revert m. induction events as [|evt events IH]; intros m; cbn [for_each].
  { apply wp_ret. by apply List.Forall_nil. }
  wp_step. eapply wp_mono; [apply handle_event_calls|].
  intros r m1 l1 [Hl1 _]. destruct r as [[]|e]; [|done].
  eapply wp_mono; [apply IH|]. intros r2 m2 l2 Hl2. by apply Forall_app.
Qed.

Lemma body_call_not_logs ag (l : list Request) :
  Forall (body_call ag) l → ranges l = [].
Proof.
  induction 1 as [|q l Hq _ IH]; [done|].
  destruct q; cbn [ranges]; done.
Qed.

(** *** Counting the transactions to one member *)

Lemma onboardings_app id (l1 l2 : list Request) :
  onboardings id (l1 ++ l2) = (onboardings id l1 + onboardings id l2)%nat.
Proof. unfold onboardings. by rewrite List.filter_app, length_app. Qed.

Lemma onboardings_le_transactions id (l : list Request) :
  (onboardings id l ≤ transactions l)%nat.
Proof.
  unfold onboardings, transactions. induction l as [|q l IH]; [done|].
  cbn [List.filter]. unfold is_onboarding_of at 1, is_transaction at 1.
  destruct (submitted q) as [[]|]; cbn [length]; try case_bool_decide; cbn [length]; lia.
Qed.

Lemma onboardings_never id (l : list Request) :
  never_onboards id l ↔ onboardings id l = 0%nat.
Proof.
  unfold never_onboards, onboardings. induction l as [|q l IH].
  { split; [done|]. intros _. by apply List.Forall_nil. }
  cbn [List.filter]. rewrite Forall_cons, IH.
  destruct (is_onboarding_of id q); cbn [length]; split; intros H;
    try done; try lia; try (by destruct H).
Qed.

Lemma onboardings_exists id (l : list Request) :
  Exists (λ q, is_onboarding_of id q = true) l ↔ (0 < onboardings id l)%nat.
Proof.
  unfold onboardings. induction l as [|q l IH].
  { cbn. split; [by intros ?%Exists_nil|lia]. }
  cbn [List.filter]. rewrite Exists_cons, IH.
  destruct (is_onboarding_of id q); cbn [length]; split; intros H;
    try lia; auto; try (by destruct H).
Qed.

Lemma once_nothing ag id (s : gset bytes) r (l : list Request) :
  onboardings id l = 0%nat → once ag id s r s l.
Proof. intros Hl. unfold once. rewrite Hl. repeat split; try done; lia. Qed.

Lemma once_seq ag id (s s1 s2 : gset bytes) r (l1 l2 : list Request) :
  once ag id s (Ok tt) s1 l1 → once ag id s1 r s2 l2 →
  once ag id s r s2 (l1 ++ l2).
Proof.
  intros (Hle1 & Hin1 & Hself1 & Hmark1 & Hsub1) (Hle2 & Hin2 & Hself2 & Hmark2 & Hsub2).
  unfold once. rewrite onboardings_app.
  assert (Hone : onboardings id l1 = 1%nat → onboardings id l2 = 0%nat)
    by (intros H1; apply Hin2, Hmark1; done).
  repeat split.
  - destruct (decide (onboardings id l1 = 1%nat)) as [H1|H1]; [rewrite (Hone H1)|]; lia.
  - intros Hid. rewrite (Hin1 Hid), (Hin2 (Hsub1 _ Hid)). done.
  - intros Hid. by rewrite (Hself1 Hid), (Hself2 Hid).
  - intros Hsum Hr. destruct (decide (onboardings id l1 = 1%nat)) as [H1|H1].
    + by apply Hsub2, Hmark1.
    + apply Hmark2; [lia|done].
  - set_solver.
Qed.

(** Requests around a stretch that are not transactions change nothing. *)
Lemma once_frame ag id (s s' : gset bytes) r r' (l pre post : list Request) :
  once ag id s r s' l → (r' = Ok tt → r = Ok tt) →
  transactions pre = 0%nat → transactions post = 0%nat →
  once ag id s r' s' (pre ++ l ++ post).
Proof.
  intros (Hle & Hin & Hself & Hmark & Hsub) Hr Hpre Hpost.
  assert (H1 := onboardings_le_transactions id pre).
  assert (H2 := onboardings_le_transactions id post).
  unfold once. rewrite !onboardings_app.
  replace (onboardings id pre) with 0%nat by lia.
  replace (onboardings id post) with 0%nat by lia.
  rewrite Nat.add_0_l, Nat.add_0_r. repeat split; auto.
Qed.

Lemma handle_event_once ag id evt m :
  once ag id (onboarded m) (res (handle_event ag evt m))
    (onboarded (final (handle_event ag evt m))) (emitted (handle_event ag evt m)).
Proof.
  destruct (handle_event_calls ag evt m) as [_ Htx].
  assert (Hle := onboardings_le_transactions id (emitted (handle_event ag evt m))).
  destruct (handle_event_outcome ag evt m)
    as [Hskip Hr Hm Hl|Hne Hni Hr Ho Hb Hex Hall|e Hne Hni Hr Ho Hb Hall].
  - rewrite Hl, Hm. by apply once_nothing.
  - destruct (decide (id = memberId evt)) as [->|Hid].
    + unfold once. rewrite Ho. repeat split; try done; try lia.
      * intros _ _. by apply elem_of_union_l, elem_of_singleton.
      * apply union_subseteq_r.
    + assert (H0 : onboardings id (emitted (handle_event ag evt m)) = 0%nat).
      { apply onboardings_never. eapply only_for_never; [|done]. congruence. }
      unfold once. rewrite H0, Ho. repeat split; try done; try lia.
      apply union_subseteq_r.
  - destruct (decide (id = memberId evt)) as [->|Hid].
    + unfold once. rewrite Ho, Hr. repeat split; try done; lia.
    + assert (H0 : onboardings id (emitted (handle_event ag evt m)) = 0%nat).
      { apply onboardings_never. eapply only_for_never; [|done]. congruence. }
      unfold once. rewrite H0, Ho. repeat split; try done; lia.
Qed.

Lemma for_each_once ag id events m :
  wp (for_each events (handle_event ag)) m (λ r m' l,
    once ag id (onboarded m) r (onboarded m') l).
Proof.
  revert m. induction events as [|evt events IH]; intros m; cbn [for_each].
  { apply wp_ret. by apply once_nothing. }
  wp_step. unfold wp at 1. assert (H1 := handle_event_once ag id evt m).
  destruct (res (handle_event ag evt m)) as [[]|e]; [|done].
  eapply wp_mono; [apply IH|]. intros r2 m2 l2 H2. by eapply once_seq.
Qed.

Lemma tick_once ag id m :
  once ag id (onboarded m) (res (tick ag m)) (onboarded (final (tick ag m)))
    (emitted (tick ag m)).
Proof.
  destruct (tick_runs ag m)
    as [e w1 Hhead|cb w1 r w2 Hhead Hle Hsleep|cb w1 e w2 Hhead Hlt Hlogs
       |cb w1 events w2 e Hhead Hlt Hlogs Hbody
       |cb w1 events w2 r w3 Hhead Hlt Hlogs Hbody Hsleep];
    cbn [res final emitted onboarded with_world].
  1-3: by apply once_nothing.
  - assert (H := for_each_once ag id events (with_world m w2)). unfold wp in H.
    rewrite Hbody in H.
    apply (once_frame _ _ _ _ _ (Raise e)
             _ [block_number; MemberRegistered_get_logs (last_block m + 1) cb] []) in H;
      try done.
    by rewrite app_nil_r in H.
  - assert (H := for_each_once ag id events (with_world m w2)). unfold wp in H.
    rewrite Hbody in H.
    by apply (once_frame _ _ _ _ _ r
             _ [block_number; MemberRegistered_get_logs (last_block m + 1) cb]
             [time_sleep POLL_INTERVAL]) in H.
Qed.

Lemma loop_step ag n m :
  loop ag (S n) m =
    match res (tick ag m) with
    | Ok _ =>
        {| res := res (loop ag n (final (tick ag m)));
           final := final (loop ag n (final (tick ag m)));
           emitted := emitted (tick ag m) ++ emitted (loop ag n (final (tick ag m))) |}
    | Raise e =>
        {| res := Raise e; final := final (tick ag m); emitted := emitted (tick ag m) |}
    end.
Proof. reflexivity. Qed.

Lemma loop_once ag id n m :
  once ag id (onboarded m) (res (loop ag n m)) (onboarded (final (loop ag n m)))
    (emitted (loop ag n m)).
Proof.
  revert m. induction n as [|n IH]; intros m.
  { by apply once_nothing. }
  rewrite loop_step. assert (H1 := tick_once ag id m).
  destruct (res (tick ag m)) as [[]|e]; cbn [res final emitted]; [|done].
  by eapply once_seq.
Qed.

(** *** Who gets marked *)

Lemma sent_if_marked_seq (s s1 s2 : gset bytes) (l1 l2 : list Request) :
  s ⊆ s1 → sent_if_marked s s1 l1 → sent_if_marked s1 s2 l2 →
  sent_if_marked s s2 (l1 ++ l2).
Proof.
  intros Hsub H1 H2 id Hid. rewrite Exists_app.
  destruct (H2 id Hid) as [Hid1|?]; [|by auto].
  destruct (H1 id Hid1); auto.
Qed.

Lemma sent_if_marked_frame (s s' : gset bytes) (l pre post : list Request) :
  sent_if_marked s s' l → sent_if_marked s s' (pre ++ l ++ post).
Proof.
  intros H id Hid. rewrite !Exists_app. destruct (H id Hid); auto.
Qed.

Lemma tick_sent_if_marked ag m :
  onboarded m ⊆ onboarded (final (tick ag m)) ∧
  sent_if_marked (onboarded m) (onboarded (final (tick ag m))) (emitted (tick ag m)).
Proof.
  destruct (tick_runs ag m)
    as [e w1 Hhead|cb w1 r w2 Hhead Hle Hsleep|cb w1 e w2 Hhead Hlt Hlogs
       |cb w1 events w2 e Hhead Hlt Hlogs Hbody
       |cb w1 events w2 r w3 Hhead Hlt Hlogs Hbody Hsleep];
    cbn [res final emitted onboarded with_world].
  1-3: by split; [|intros id Hid; left].
  all: destruct (for_each_outcome ag events (with_world m w2)) as [_ Hgrow _ _ Hnew _ _].
  all: split; [exact Hgrow|].
  - apply (sent_if_marked_frame _ _ _
             [block_number; MemberRegistered_get_logs (last_block m + 1) cb] [])
      in Hnew.
    by rewrite app_nil_r in Hnew.
  - by apply (sent_if_marked_frame _ _ _
             [block_number; MemberRegistered_get_logs (last_block m + 1) cb]
             [time_sleep POLL_INTERVAL]) in Hnew.
Qed.

Lemma loop_sent_if_marked ag n m :
  onboarded m ⊆ onboarded (final (loop ag n m)) ∧
  sent_if_marked (onboarded m) (onboarded (final (loop ag n m))) (emitted (loop ag n m)).
Proof.
  revert m. induction n as [|n IH]; intros m.
  { split; [done|]. intros id Hid. by left. }
  rewrite loop_step. destruct (tick_sent_if_marked ag m) as [Hsub1 H1].
  destruct (res (tick ag m)) as [[]|e]; cbn [res final emitted]; [|done].
  destruct (IH (final (tick ag m))) as [Hsub2 H2]. split.
  - by etrans.
  - by eapply sent_if_marked_seq.
Qed.

Lemma handle_event_marked_from ag evt m :
  marked_from ag [evt] (onboarded m) (onboarded (final (handle_event ag evt m))).
Proof.
  destruct (handle_event_outcome ag evt m)
    as [Hskip Hr Hm Hl|Hne Hni Hr Ho Hb Hex Hall|e Hne Hni Hr Ho Hb Hall].
  - rewrite Hm. intros id Hid. by left.
  - rewrite Ho. intros id [->%elem_of_singleton|Hid]%elem_of_union; [|by left].
    right. split; [done|]. exists evt. split; [apply list_elem_of_here|done].
  - rewrite Ho. intros id Hid. by left.
Qed.

Lemma for_each_marked_from ag events m :
  marked_from ag events (onboarded m)
    (onboarded (final (for_each events (handle_event ag) m))).
Proof.
  revert m. induction events as [|evt events IH]; intros m.
  { intros id Hid. by left. }
  cbn [for_each]. unfold mbind, M_bind, bind.
  assert (H1 := handle_event_marked_from ag evt m).
  assert (Hweak : marked_from ag (evt :: events) (onboarded m)
                    (onboarded (final (handle_event ag evt m)))).
  { intros id Hid. destruct (H1 id Hid) as [?|(Hne & evt' & Hin & Heq)]; [by left|].
    right. split; [done|]. exists evt'. split; [|done].
    apply list_elem_of_singleton in Hin as ->. apply list_elem_of_here. }
  destruct (res (handle_event ag evt m)) as [[]|e]; cbn [final]; [|done].
  intros id Hid. destruct (IH _ id Hid) as [Hid1|(Hne & evt' & Hin & Heq)].
  - by apply Hweak.
  - right. split; [done|]. exists evt'. split; [by apply list_elem_of_further|done].
Qed.

(** *** The block ranges *)

Lemma ranges_app (l1 l2 : list Request) : ranges (l1 ++ l2) = ranges l1 ++ ranges l2.
Proof.
  induction l1 as [|q l1 IH]; [done|].
  destruct q; cbn [app ranges]; by rewrite ?IH.
Qed.

Lemma contiguous_app lb (rs1 rs2 : list (Z * Z)) :
  contiguous lb (rs1 ++ rs2) ↔
  contiguous lb rs1 ∧ contiguous (watermark_after lb rs1) rs2.
Proof.
  revert lb. induction rs1 as [|[f t] rs1 IH]; intros lb; cbn.
  - tauto.
  - rewrite IH. tauto.
Qed.

Lemma watermark_after_app lb (rs1 rs2 : list (Z * Z)) :
  watermark_after lb (rs1 ++ rs2) = watermark_after (watermark_after lb rs1) rs2.
Proof. revert lb. induction rs1 as [|[f t] rs1 IH]; intros lb; cbn; [done|apply IH]. Qed.

Lemma contiguous_after lb (rs : list (Z * Z)) :
  contiguous lb rs → Forall (λ r, lb < r.1 ∧ r.1 ≤ r.2) rs.
Proof.
  revert lb. induction rs as [|[f t] rs IH]; intros lb; cbn.
  { intros _. by apply List.Forall_nil. }
  intros (-> & Hle & Hrest). apply List.Forall_cons; [cbn; lia|].
  eapply Forall_impl; [by apply IH|]. intros [f' t'] [? ?]. cbn in *. lia.
Qed.

(** A tick asks for no range and leaves the watermark, or asks for the one
    range that starts after the watermark and, if it ends well, moves the
    watermark to the end of it. *)
Lemma tick_ranges ag m :
  contiguous (last_block m) (ranges (emitted (tick ag m))) ∧
  (res (tick ag m) = Ok tt →
   last_block (final (tick ag m))
     = watermark_after (last_block m) (ranges (emitted (tick ag m)))).
Proof.
  destruct (tick_runs ag m)
    as [e w1 Hhead|cb w1 r w2 Hhead Hle Hsleep|cb w1 e w2 Hhead Hlt Hlogs
       |cb w1 events w2 e Hhead Hlt Hlogs Hbody
       |cb w1 events w2 r w3 Hhead Hlt Hlogs Hbody Hsleep];
    cbn [res final emitted last_block with_world ranges].
  1-2: done.
  - cbn. split; [lia|done].
  - rewrite (body_call_not_logs ag) by apply for_each_calls. cbn. split; [lia|done].
  - rewrite ranges_app, (body_call_not_logs ag) by apply for_each_calls.
    cbn. split; [lia|done].
Qed.

Lemma loop_ranges ag n m :
  contiguous (last_block m) (ranges (emitted (loop ag n m))) ∧
  (res (loop ag n m) = Ok tt →
   last_block (final (loop ag n m))
     = watermark_after (last_block m) (ranges (emitted (loop ag n m)))).
Proof.
  revert m. induction n as [|n IH]; intros m.
  { done. }
  rewrite loop_step. destruct (tick_ranges ag m) as [Hc1 Hw1].
  destruct (res (tick ag m)) as [[]|e]; cbn [res final emitted]; [|done].
  destruct (IH (final (tick ag m))) as [Hc2 Hw2].
  rewrite ranges_app, contiguous_app, watermark_after_app, <- (Hw1 eq_refl).
  done.
Qed.

(** *** The calls of the loop *)

Lemma tick_calls ag m : Forall (watcher_call ag) (emitted (tick ag m)).
Proof.
  assert (Hbody : ∀ events m0,
    Forall (watcher_call ag) (emitted (for_each events (handle_event ag) m0))).
  { intros events m0. eapply Forall_impl; [apply for_each_calls|].
    intros q Hq. by do 3 right. }
  destruct (tick_runs ag m)
    as [e w1 Hhead|cb w1 r w2 Hhead Hle Hsleep|cb w1 e w2 Hhead Hlt Hlogs
       |cb w1 events w2 e Hhead Hlt Hlogs Hbody'
       |cb w1 events w2 r w3 Hhead Hlt Hlogs Hbody' Hsleep];
    cbn [emitted].
  all: repeat (apply List.Forall_cons; [unfold watcher_call; cbn; by auto|]).
  all: try apply List.Forall_nil.
  - apply Hbody.
  - apply Forall_app. split; [apply Hbody|].
    apply List.Forall_cons; [unfold watcher_call; by auto|apply List.Forall_nil].
Qed.

(** *** Nothing raises unless a call does *)

Section Safe.
Variable P : World → Prop.
Hypothesis HP : answers_all P.
Hypothesis Hcheck : ∀ fn, check_arguments fn = Ok tt.

Lemma safe_ret {A} (a : A) : safe P (mret a).
Proof. intros m Hm. apply wp_ret. eauto. Qed.

Lemma safe_bind {A B} (c : M A) (k : A → M B) :
  safe P c → (∀ a, safe P (k a)) → safe P (c ≫= k).
Proof.
  intros Hc Hk m Hm. apply wp_bind. eapply wp_mono; [by apply Hc|].
  intros r m1 l1 [[a ->] Hm1]. eapply wp_mono; [by apply Hk|]. done.
Qed.

Lemma safe_request (r : Request) : safe P (request r).
Proof.
  intros m Hm. apply wp_request. intros a w Ha.
  destruct (HP r (world m) Hm) as [[a' Ha'] Hw]. rewrite Ha in Ha', Hw.
  cbn in Ha', Hw. subst a. eauto.
Qed.

Ltac safe_req :=
  lazymatch goal with |- safe _ (request ?r) => exact (safe_request r) end.

Lemma safe_send_transaction ag fn gas : safe P (send_transaction ag fn gas).
Proof.
  unfold send_transaction. rewrite Hcheck.
  apply safe_bind; [apply safe_ret|intros _].
  apply safe_bind; [safe_req|intros nonce].
  apply safe_bind; [safe_req|intros defaults].
  safe_req.
Qed.

Lemma safe_handle_event ag evt : safe P (handle_event ag evt).
Proof.
  unfold handle_event.
  apply safe_bind; [by intros m Hm; apply wp_get_onboarded; eauto|intros s].
  case_bool_decide; [apply safe_ret|].
  unfold onboard_member, send_onboard.
  apply safe_bind.
  { apply safe_bind; [safe_req|intros member_info].
    apply safe_bind; [safe_req|intros payload].
    apply safe_send_transaction. }
  intros tx_hash. apply safe_bind; [safe_req|intros _].
  apply safe_bind; [by intros m Hm; apply wp_get_onboarded; eauto|intros s'].
  intros m Hm. apply wp_set_onboarded. eauto.
Qed.

Lemma safe_for_each ag events : safe P (for_each events (handle_event ag)).
Proof.
  induction events as [|evt events IH]; cbn [for_each].
  - apply safe_ret.
  - apply safe_bind; [apply safe_handle_event|by intros _].
Qed.

Lemma safe_tick ag : safe P (tick ag).
Proof.
  unfold tick.
  apply safe_bind; [safe_req|intros current_block].
  apply safe_bind; [by intros m Hm; apply wp_get_last_block; eauto|intros lb].
  apply safe_bind; [|intros _; safe_req].
  destruct (lb <? current_block); [|apply safe_ret].
  apply safe_bind; [safe_req|intros events].
  apply safe_bind; [apply safe_for_each|intros _].
  intros m Hm. apply wp_set_last_block. eauto.
Qed.

Lemma safe_loop ag n : safe P (loop ag n).
Proof.
  induction n as [|n IH]; cbn [loop].
  - apply safe_ret.
  - apply safe_bind; [apply safe_tick|by intros _].
Qed.

End Safe.

(** *** Hexadecimal strings *)

Lemma hex_byte (x : byte) :
  is_space (hex_char (Byte.to_N x / 16)) = false ∧
  hex_digit (hex_char (Byte.to_N x / 16)) = Some (Byte.to_N x / 16)%N ∧
  hex_digit (hex_char (Byte.to_N x mod 16)) = Some (Byte.to_N x mod 16)%N ∧
  byte_of_nibbles (Byte.to_N x / 16) (Byte.to_N x mod 16) = x.
Proof. destruct x; vm_compute; done. Qed.

Lemma hex_char_no_x (x : byte) (s : string) :
  no_x (String (hex_char (Byte.to_N x / 16)) s) ∧
  no_x (String (hex_char (Byte.to_N x mod 16)) s).
Proof. destruct x; vm_compute; done. Qed.

Lemma fromhex_hex (b : bytes) : fromhex (bytes_hex b) = Some b.
Proof.
  induction b as [|x b IH]; [done|].
  destruct (hex_byte x) as (Hsp & Hhi & Hlo & Hx).
  cbn [bytes_hex fromhex]. rewrite Hsp, Hhi, Hlo, IH. cbn [fmap option_fmap option_map].
  by rewrite Hx.
Qed.

Lemma replace_0x_cons (c : ascii) (s : string) :
  no_x s → replace_0x (String c s) = String c (replace_0x s).
Proof.
  intros Hs. destruct c as [[|] [|] [|] [|] [|] [|] [|] [|]]; try reflexivity.
  destruct s as [|d s]; [reflexivity|].
  destruct d as [[|] [|] [|] [|] [|] [|] [|] [|]]; try reflexivity.
  destruct Hs.
Qed.

Lemma bytes_hex_no_x (b : bytes) : no_x (bytes_hex b).
Proof. destruct b as [|x b]; [done|]. apply hex_char_no_x. Qed.

Lemma replace_0x_hex (b : bytes) : replace_0x (bytes_hex b) = bytes_hex b.
Proof.
  induction b as [|x b IH]; [done|]. cbn [bytes_hex].
  rewrite replace_0x_cons by apply hex_char_no_x.
  rewrite replace_0x_cons by apply bytes_hex_no_x.
  by rewrite IH.
Qed.

(** *** Pacing *)

Lemma last_cons {A} (x : A) (l : list A) (d : A) :
  List.last (x :: l) d = List.last l x.
Proof.
  revert x d. induction l as [|y l IH]; intros x d; [done|].
  change (List.last (x :: y :: l) d) with (List.last (y :: l) d).
  by rewrite !IH.
Qed.

Lemma paced_app prev (l1 l2 : list Request) :
  paced prev (l1 ++ l2) ↔ paced prev l1 ∧ paced (List.last l1 prev) l2.
Proof.
  revert prev. induction l1 as [|q l1 IH]; intros prev.
  { cbn. tauto. }
  cbn [app paced]. rewrite IH, last_cons. tauto.
Qed.

Lemma paced_body ag prev (l : list Request) :
  Forall (body_call ag) l → paced prev l.
Proof.
  intros Hl. revert prev. induction Hl as [|q l Hq _ IH]; intros prev; [done|].
  cbn [paced]. split; [|apply IH]. intros ->. destruct Hq.
Qed.

Lemma last_snoc {A} (l : list A) (x d : A) : List.last (l ++ [x]) d = x.
Proof. apply List.last_last. Qed.

(** A tick starts with its block number read and, when it ends well, ends
    with its sleep. *)
Lemma tick_paced ag m :
  paced (time_sleep POLL_INTERVAL) (emitted (tick ag m)) ∧
  (res (tick ag m) = Ok tt →
   ∀ prev, List.last (emitted (tick ag m)) prev = time_sleep POLL_INTERVAL).
Proof.
  destruct (tick_runs ag m)
    as [e w1 Hhead|cb w1 r w2 Hhead Hle Hsleep|cb w1 e w2 Hhead Hlt Hlogs
       |cb w1 events w2 e Hhead Hlt Hlogs Hbody
       |cb w1 events w2 r w3 Hhead Hlt Hlogs Hbody Hsleep];
    cbn [res emitted].
  1-3: by cbn.
  - split; [|done]. cbn [paced]. repeat split; try done.
    apply (paced_body ag), for_each_calls.
  - split.
    + cbn [paced]. repeat split; try done. apply paced_app. split.
      * apply (paced_body ag), for_each_calls.
      * by cbn.
    + intros _ prev.
      change (List.last
                ([block_number; MemberRegistered_get_logs (last_block m + 1) cb]
                 ++ emitted (for_each events (handle_event ag) (with_world m w2))
                 ++ [time_sleep POLL_INTERVAL]) prev = time_sleep POLL_INTERVAL).
      rewrite app_assoc. apply last_snoc.
Qed.

(** ** Further properties of the script *)

(** X1 (any identity failure is fatal before the ledger).  Whatever makes
    lines 26-71 raise - a Dstack call, a key or signature that is not
    hexadecimal, a key the account library refuses, a signature that cannot
    be recovered - the script ends there with that exception, having made
    only Dstack calls. *)
Theorem identity_failure_is_fatal n m e :
  res (identity m) = Raise e →
  res (agent_main n m) = Raise e ∧
  final (agent_main n m) = final (identity m) ∧
  emitted (agent_main n m) = emitted (identity m) ∧
  Forall (λ q, is_ledger_call q = false) (emitted (agent_main n m)).
Proof.
  intros Hid.
  assert (Hstart : startup m =
    {| res := Raise e; final := final (identity m); emitted := emitted (identity m) |}).
  { unfold startup. by rewrite (bind_raise _ _ _ _ Hid). }
  assert (Hmain : agent_main n m =
    {| res := Raise e; final := final (identity m); emitted := emitted (identity m) |}).
  { unfold agent_main. rewrite (bind_raise _ _ _ e); by rewrite Hstart. }
  rewrite Hmain. cbn [res final emitted]. repeat split.
  destruct (identity_assemble m) as (Hl & _). rewrite Hl.
  apply Forall_take. by repeat constructor.
Qed.

(** X2 (a reverted registration is fatal).  When the agent is not yet a
    member and the receipt of its registration transaction reports a status
    other than 1, the assertion of line 82 ends the script: exactly one
    registration was sent, and nothing of the watcher (health endpoint,
    block reads) was started. *)
Theorem reverted_registration_is_fatal n m ag w1 tx_hash receipt w3 :
  res (identity m) = Ok ag →
  handle (isMember_call (my_member_id ag)) (world (final (identity m)))
    = (Ok false, w1) →
  res (send_transaction ag (registerDstack (code_id ag) (dstack_proof ag)) 500000
         (with_world (final (identity m)) w1)) = Ok tx_hash →
  handle (wait_for_transaction_receipt tx_hash)
    (world (final (send_transaction ag (registerDstack (code_id ag) (dstack_proof ag))
                     500000 (with_world (final (identity m)) w1))))
    = (Ok receipt, w3) →
  status receipt ≠ 1 →
  res (agent_main n m) = Raise AssertionError ∧
  registrations (emitted (agent_main n m)) = 1%nat ∧
  emitted (agent_main n m)
    = emitted (identity m)
      ++ isMember_call (my_member_id ag)
         :: emitted (send_transaction ag (registerDstack (code_id ag) (dstack_proof ag))
                       500000 (with_world (final (identity m)) w1))
         ++ [wait_for_transaction_receipt tx_hash].
Proof.
  intros Hid Hmember Hsend Hwait Hstatus.
  set (m1 := final (identity m)) in *.
  set (fn := registerDstack (code_id ag) (dstack_proof ag)) in *.
  set (sending := send_transaction ag fn 500000 (with_world m1 w1)) in *.
  assert (Hreg : register ag m1 =
    {| res := Raise AssertionError;
       final := with_world (final sending) w3;
       emitted := isMember_call (my_member_id ag)
                  :: emitted sending ++ [wait_for_transaction_receipt tx_hash] |}).
  { unfold register, mbind, M_bind, bind.
    rewrite (request_answer _ _ _ _ Hmember). cbn [res final emitted].
    fold (with_world m1 w1). fold fn. fold sending. rewrite Hsend.
    rewrite (request_answer _ _ _ _ Hwait). cbn [res final emitted].
    apply Z.eqb_neq in Hstatus. rewrite Hstatus. cbn [raise res final emitted app].
    reflexivity. }
  assert (Hstart : startup m =
    {| res := Raise AssertionError; final := with_world (final sending) w3;
       emitted := emitted (identity m)
                  ++ isMember_call (my_member_id ag)
                     :: emitted sending ++ [wait_for_transaction_receipt tx_hash] |}).
  { unfold startup. rewrite (bind_ok _ _ _ _ Hid). fold m1.
    rewrite (bind_raise _ _ _ AssertionError) by by rewrite Hreg.
    by rewrite Hreg. }
  assert (Hmain : agent_main n m =
    {| res := Raise AssertionError; final := with_world (final sending) w3;
       emitted := emitted (identity m)
                  ++ isMember_call (my_member_id ag)
                     :: emitted sending ++ [wait_for_transaction_receipt tx_hash] |}).
  { unfold agent_main. rewrite (bind_raise _ _ _ AssertionError) by by rewrite Hstart.
    by rewrite Hstart. }
  rewrite Hmain. cbn [res emitted]. split; [done|]. split; [|done].
  assert (Hquiet : registrations (emitted (identity m)) = 0%nat).
  { apply registrations_plain. destruct (identity_assemble m) as (Hl & _).
    rewrite Hl. apply Forall_take. by repeat constructor. }
  assert (Hle := send_transaction_once ag fn 500000 (with_world m1 w1)).
  destruct (send_transaction_sent ag fn 500000 (with_world m1 w1)) as (_ & _ & _ & Hex).
  unfold wp in Hle. fold sending in Hle, Hex. specialize (Hex tx_hash Hsend).
  assert (Hge : (1 ≤ registrations (emitted sending))%nat).
  { unfold registrations. apply Exists_exists in Hex as (q & Hin & Hq).
    assert (Hq' : is_registration q = true) by (unfold is_registration; by rewrite Hq).
    assert (Hin' : In q (List.filter is_registration (emitted sending))).
    { apply List.filter_In. split; [by apply list_elem_of_In|done]. }
    destruct (List.filter is_registration (emitted sending)); [done|cbn; lia]. }
  change (isMember_call (my_member_id ag)
          :: emitted sending ++ [wait_for_transaction_receipt tx_hash])
    with ([isMember_call (my_member_id ag)]
          ++ emitted sending ++ [wait_for_transaction_receipt tx_hash]).
  rewrite !registrations_app, Hquiet. cbn. lia.
Qed.

(** X3 (at most one transaction per member).  However long the loop runs and
    however it ends, it sends at most one [onboard] transaction to any one
    member, and none to a member already in [onboarded] when it starts, nor
    to the agent itself. *)
Theorem at_most_once_per_member ag n m id :
  (onboardings id (emitted (loop ag n m)) ≤ 1)%nat ∧
  (id ∈ onboarded m → onboardings id (emitted (loop ag n m)) = 0%nat) ∧
  (id = my_member_id ag → onboardings id (emitted (loop ag n m)) = 0%nat).
Proof.
  destruct (loop_once ag id n m) as (Hle & Hin & Hself & _ & _). done.
Qed.

(** X4 (a completed tick marks exactly the newcomers).  When a tick reads a
    new block, gets [events] and ends without an exception, [last_block] is
    the block it read and [onboarded] holds exactly who it held before
    together with the members of [events] other than the agent. *)
Theorem completed_tick_marks_exactly ag m current_block w1 events w2 :
  handle block_number (world m) = (Ok current_block, w1) →
  last_block m < current_block →
  handle (MemberRegistered_get_logs (last_block m + 1) current_block) w1
    = (Ok events, w2) →
  res (tick ag m) = Ok tt →
  last_block (final (tick ag m)) = current_block ∧
  ∀ id, id ∈ onboarded (final (tick ag m)) ↔
    id ∈ onboarded m ∨
    (id ≠ my_member_id ag ∧ ∃ evt, evt ∈ events ∧ memberId evt = id).
Proof.
  intros Hhead Hlt Hlogs.
  destruct (tick_runs ag m)
    as [e w1' Hhead'|cb w1' r w2' Hhead' Hle Hsleep|cb w1' e w2' Hhead' Hlt' Hlogs'
       |cb w1' events' w2' e Hhead' Hlt' Hlogs' Hbody
       |cb w1' events' w2' r w3 Hhead' Hlt' Hlogs' Hbody Hsleep];
    cbn [res final last_block onboarded];
    rewrite Hhead in Hhead'; simplify_eq; try lia.
  all: rewrite Hlogs in Hlogs'; simplify_eq.
  all: try (intros ?; discriminate).
  intros _. split; [done|]. intros id.
  destruct (for_each_outcome ag events' (with_world m w2')) as [_ Hgrow _ _ _ Hall _].
  assert (Hfrom := for_each_marked_from ag events' (with_world m w2')).
  cbn [onboarded with_world] in *. split.
  - apply Hfrom.
  - intros [Hid|(Hne & evt & Hin & <-)]; [by apply Hgrow|].
    destruct (Hall Hbody evt Hin); done.
Qed.

(** X5 (the dedup set only grows, and only by members that were sent to).
    Over any run of the loop [onboarded] never loses a member, and every
    member it gained was sent an [onboard] transaction in that run. *)
Theorem marked_members_were_sent ag n m :
  onboarded m ⊆ onboarded (final (loop ag n m)) ∧
  ∀ id, id ∈ onboarded (final (loop ag n m)) →
    id ∈ onboarded m ∨
    Exists (λ q, is_onboarding_of id q = true) (emitted (loop ag n m)).
Proof. apply loop_sent_if_marked. Qed.

(** X6 (the ranges asked for are contiguous).  Over any run of the loop the
    block ranges passed to [get_logs] follow one another without gap or
    overlap: the first starts one block after [last_block], each next one
    block after the previous ended, none is empty; and when the run ends
    without an exception [last_block] is the end of the last range. *)
Theorem ranges_are_contiguous ag n m :
  contiguous (last_block m) (ranges (emitted (loop ag n m))) ∧
  (res (loop ag n m) = Ok tt →
   last_block (final (loop ag n m))
     = watermark_after (last_block m) (ranges (emitted (loop ag n m)))).
Proof. apply loop_ranges. Qed.

(** X7 (nothing registered before startup is ever fetched).  The watcher
    takes the chain head it reads at line 105 as its first watermark: every
    range it asks for afterwards starts above that head, so a registration
    in a block at or below it is never read. *)
Theorem older_events_never_fetched ag n m w1 head w2 :
  handle (serve_health 8080) (world m) = (Ok tt, w1) →
  handle block_number w1 = (Ok head, w2) →
  Forall (λ r, head < r.1 ∧ r.1 ≤ r.2) (ranges (emitted (watcher ag n m))).
Proof.
  intros Hserve Hhead.
  set (m0 := {| world := w2; onboarded := ∅; last_block := head |}).
  assert (Hinit : watcher_init m =
    {| res := Ok tt; final := m0; emitted := [serve_health 8080; block_number] |}).
  { unfold watcher_init, mbind, M_bind, bind, set_onboarded, set_last_block.
    cbn [res final emitted].
    rewrite (request_at _ _ _ _ _ _ Hserve). cbn [res final emitted].
    rewrite (request_at _ _ _ _ _ _ Hhead). by cbn [res final emitted app]. }
  assert (Hw : emitted (watcher ag n m)
               = [serve_health 8080; block_number] ++ emitted (loop ag n m0)).
  { unfold watcher. rewrite (bind_ok _ _ _ tt) by by rewrite Hinit.
    by rewrite Hinit. }
  rewrite Hw, ranges_app. cbn [ranges app].
  apply contiguous_after. apply (loop_ranges ag n m0).
Qed.

(** X8 (a failed read ends the watcher).  When the block number read or the
    log read of a tick raises, the exception is not caught: the tick ends
    with it, having sent no transaction and changed neither [onboarded] nor
    [last_block], and the loop ends with the same exception. *)
Theorem read_failure_ends_loop ag m n e :
  ((handle block_number (world m)).1 = Raise e ∨
   ∃ current_block w1,
     handle block_number (world m) = (Ok current_block, w1) ∧
     last_block m < current_block ∧
     (handle (MemberRegistered_get_logs (last_block m + 1) current_block) w1).1
       = Raise e) →
  res (tick ag m) = Raise e ∧
  onboarded (final (tick ag m)) = onboarded m ∧
  last_block (final (tick ag m)) = last_block m ∧
  transactions (emitted (tick ag m)) = 0%nat ∧
  res (loop ag (S n) m) = Raise e ∧
  final (loop ag (S n) m) = final (tick ag m).
Proof.
  intros Hfail.
  assert (Htick : res (tick ag m) = Raise e ∧
                  onboarded (final (tick ag m)) = onboarded m ∧
                  last_block (final (tick ag m)) = last_block m ∧
                  transactions (emitted (tick ag m)) = 0%nat).
  { destruct (tick_runs ag m)
      as [e' w1' Hhead'|cb w1' r w2' Hhead' Hle Hsleep|cb w1' e' w2' Hhead' Hlt' Hlogs'
         |cb w1' events' w2' e' Hhead' Hlt' Hlogs' Hbody
         |cb w1' events' w2' r w3 Hhead' Hlt' Hlogs' Hbody Hsleep];
      cbn [res final emitted last_block onboarded with_world];
      destruct Hfail as [Hfail|(cb0 & w0 & Hhead & Hlt & Hfail)];
      try (rewrite Hhead' in Hfail; cbn [fst] in Hfail; simplify_eq);
      try (rewrite Hhead in Hhead'; simplify_eq);
      try lia;
      try (rewrite Hlogs' in Hfail; cbn [fst] in Hfail; simplify_eq);
      done. }
  destruct Htick as (Hres & Ho & Hb & Htx).
  destruct (loop_raises ag n m e Hres) as (Hl1 & Hl2 & _). done.
Qed.

(** X9 (hexadecimal keys decode to their bytes).  The lower-case
    hexadecimal form of any byte string, with or without the 0x prefix,
    decodes back to that byte string, so line 33 takes such a key to its
    first 32 bytes. *)
Theorem hex_key_round_trip (b : bytes) (chain : list string) :
  bytes_fromhex (replace_0x (bytes_hex b)) = Ok b ∧
  bytes_fromhex (replace_0x ("0x" +:+ bytes_hex b)) = Ok b ∧
  derive_key {| key := "0x" +:+ bytes_hex b; signature_chain := chain |}
    = Ok (take 32 b).
Proof.
  assert (H1 : bytes_fromhex (replace_0x (bytes_hex b)) = Ok b).
  { unfold bytes_fromhex. by rewrite replace_0x_hex, fromhex_hex. }
  assert (H2 : replace_0x ("0x" +:+ bytes_hex b) = replace_0x (bytes_hex b))
    by reflexivity.
  split; [done|]. rewrite H2. split; [done|].
  unfold derive_key. cbn [key]. by rewrite H2, H1.
Qed.

(** X10 (the watcher only reads, sleeps and onboards).  Every call the loop
    makes is a block number read, a log read, the sleep of [POLL_INTERVAL],
    or a call of the loop body; every transaction it sends is an [onboard]
    from the agent's own member id with gas 200000, built for and signed by
    the derived account, and every encryption is of the group secret. *)
Theorem watcher_only_onboards ag n m :
  Forall (watcher_call ag) (emitted (loop ag n m)).
Proof.
  revert m. induction n as [|n IH]; intros m.
  { by apply List.Forall_nil. }
  rewrite loop_step. assert (H1 := tick_calls ag m).
  destruct (res (tick ag m)) as [[]|e]; cbn [emitted]; [|done].
  apply Forall_app. split; [done|apply IH].
Qed.


(** X12 (the proof sent matches the identity checked).  When lines 26-71
    succeed, the member id the script asks [isMember] about is the keccak
    hash of the public key inside the registration proof; the proof carries
    the two links of the signature chain, decoded, in their order, under the
    purpose "ethereum"; and [code_id] is the decoded application id followed
    by 12 zero bytes. *)
Theorem proof_matches_identity info result ag :
  assemble info result = Ok ag →
  my_member_id ag = keccak (derivedCompressedPubkey (dstack_proof ag)) ∧
  purpose (dstack_proof ag) = "ethereum"%string ∧
  messageHash (dstack_proof ag) = keccak (encode "groupauth-register") ∧
  ∃ link0 link1 app_bytes,
    signature_chain result !! 0%nat = Some link0 ∧
    bytes_fromhex (replace_0x link0) = Ok (appSignature (dstack_proof ag)) ∧
    signature_chain result !! 1%nat = Some link1 ∧
    bytes_fromhex (replace_0x link1) = Ok (kmsSignature (dstack_proof ag)) ∧
    bytes_fromhex (replace_0x (info_app_id info)) = Ok app_bytes ∧
    code_id ag = app_bytes ++ replicate 12 x00.
Proof.
  intros Hag. unfold assemble in Hag. split_steps Hag.
  injection Hag as <-.
  cbn [my_member_id dstack_proof derivedCompressedPubkey purpose messageHash
       appSignature kmsSignature code_id].
  split; [unfold solidity_keccak; cbn [concat]; by rewrite app_nil_r|].
  split; [done|]. split; [done|].
  unfold index in *.
  destruct (signature_chain result !! 0%nat) as [link0|] eqn:H0; [|done].
  destruct (signature_chain result !! 1%nat) as [link1|] eqn:H1; [|done].
  simplify_eq. by eexists _, _, _.
Qed.

(** X13 (the loop never polls without sleeping).  In any run of the loop
    every block number read but the first comes directly after the sleep of
    [POLL_INTERVAL] that ended the tick before. *)
Theorem polls_are_paced ag n m :
  paced (time_sleep POLL_INTERVAL) (emitted (loop ag n m)).
Proof.
  revert m. induction n as [|n IH]; intros m; [done|].
  rewrite loop_step. destruct (tick_paced ag m) as [Hp Hlast].
  destruct (res (tick ag m)) as [[]|e]; cbn [emitted]; [|done].
  apply paced_app. split; [done|]. rewrite (Hlast eq_refl). apply IH.
Qed.

End Proofs.

(** * The claims on the scripted environment *)

Section Scenarios.
Import Scripted.

Lemma scripted_keccak_length (b : bytes) : length (keccak b) = 32%nat.
Proof.
  cbn [keccak env]. rewrite length_take, length_app, length_replicate. lia.
Qed.

Lemma M1_is_not_the_agent : M1 ≠ my_member_id agent.
Proof. intros Heq. vm_compute in Heq. discriminate Heq. Qed.

(** [M1]'s event is the first one the loop comes to. *)
Lemma scripted_reaches_M1 (sc : Script) :
  sc_head sc = 101 →
  sc_logs sc = [registered M1 101; registered M2 101] →
  reaches agent (at_block sc 100) [] (registered M1 101) [registered M2 101]
    (at_block sc 100).
Proof.
  intros Hhead Hlogs. exists 101, sc, sc.
  split; [cbn; by rewrite Hhead|].
  split; [cbn; lia|].
  split; [cbn; by rewrite Hlogs|].
  split; [done|]. split; [done|].
  split; [exact M1_is_not_the_agent|].
  cbn. set_solver.
Qed.

(** C1, counterexample: the receipt wait for [M1]'s transaction times out;
    the tick does not complete, it ends with the exception. *)
Lemma timeout_is_not_retried :
  ¬ failure_is_retried agent (at_block (with_receipt timed_out) 100).
Proof.
  intros Hclaim.
  destruct (Hclaim [] (registered M1 101) [registered M2 101]
              (at_block (with_receipt timed_out) 100)) as [Hres _].
  - by apply scripted_reaches_M1.
  - exists (replicate 32 xee). split; [by vm_compute|]. by vm_compute.
  - vm_compute in Hres. discriminate Hres.
Qed.

(** C1, witness: the same run. *)
Lemma receipt_timeout_ends_loop_witness :
  reaches agent (at_block (with_receipt timed_out) 100) []
    (registered M1 101) [registered M2 101] (at_block (with_receipt timed_out) 100) ∧
  res (tick agent (at_block (with_receipt timed_out) 100))
    = Raise (LibraryError "TimeExhausted") ∧
  (M1 ∉ onboarded (final (tick agent (at_block (with_receipt timed_out) 100)))) ∧
  last_block (final (tick agent (at_block (with_receipt timed_out) 100))) = 100 ∧
  res (loop agent 3 (at_block (with_receipt timed_out) 100))
    = Raise (LibraryError "TimeExhausted").
Proof.
  assert (Hreach := scripted_reaches_M1 (with_receipt timed_out) eq_refl eq_refl).
  split; [exact Hreach|].
  destruct (receipt_timeout_ends_loop agent (at_block (with_receipt timed_out) 100)
              [] (registered M1 101) [registered M2 101]
              (at_block (with_receipt timed_out) 100)
              (replicate 32 xee) (LibraryError "TimeExhausted") 2%nat Hreach)
    as (Hres & Hni & Hb & Hloop & _).
  - vm_compute. reflexivity.
  - vm_compute. reflexivity.
  - repeat split; assumption.
Defined.

(** A reverted [onboard] transaction on the same events: the receipt is not
    looked at, the member is marked and the watermark moves on. *)
Example reverted_receipt_is_dropped :
  res (tick agent (at_block (with_receipt reverted) 100)) = Ok tt ∧
  last_block (final (tick agent (at_block (with_receipt reverted) 100))) = 101 ∧
  bool_decide (M1 ∈ onboarded (final (tick agent (at_block (with_receipt reverted) 100))))
    = true.
Proof. by vm_compute. Qed.

(** C2, counterexample: the encryption library rejects [M1]'s key; the tick
    does not complete and [M2] is never looked at. *)
Lemma bad_key_halts_the_loop :
  ¬ encryption_failure_is_skipped agent (at_block bad_key_for_M1 100).
Proof.
  intros Hclaim.
  destruct (Hclaim [] (registered M1 101) [registered M2 101]
              (at_block bad_key_for_M1 100)
              {| mi_codeId := replicate 32 x00; mi_pubkey := x02 :: M1; mi_registeredAt := 1 |}
              bad_key_for_M1 (LibraryError "ValueError")) as [Hres _].
  - by apply scripted_reaches_M1.
  - reflexivity.
  - by vm_compute.
  - vm_compute in Hres. discriminate Hres.
Qed.

(** C2, witness: the same run. *)
Lemma encryption_failure_ends_loop_witness :
  reaches agent (at_block bad_key_for_M1 100) []
    (registered M1 101) [registered M2 101] (at_block bad_key_for_M1 100) ∧
  res (tick agent (at_block bad_key_for_M1 100)) = Raise (LibraryError "ValueError") ∧
  never_onboards M1 (emitted (tick agent (at_block bad_key_for_M1 100))) ∧
  never_onboards M2 (emitted (tick agent (at_block bad_key_for_M1 100))) ∧
  (M2 ∉ onboarded (final (tick agent (at_block bad_key_for_M1 100)))) ∧
  last_block (final (tick agent (at_block bad_key_for_M1 100))) = 100.
Proof.
  assert (Hreach := scripted_reaches_M1 bad_key_for_M1 eq_refl eq_refl).
  split; [exact Hreach|].
  destruct (encryption_failure_ends_loop agent (at_block bad_key_for_M1 100)
              [] (registered M1 101) [registered M2 101]
              (at_block bad_key_for_M1 100)
              {| mi_codeId := replicate 32 x00; mi_pubkey := x02 :: M1; mi_registeredAt := 1 |}
              bad_key_for_M1 (LibraryError "ValueError") 0%nat Hreach)
    as (Hres & Hn1 & _ & Hpost & Hb & _).
  - reflexivity.
  - vm_compute. reflexivity.
  - destruct (Hpost (registered M2 101)) as [Hn2 Hni2].
    + apply list_elem_of_here.
    + cbn. set_solver.
    + repeat split; assumption.
Defined.

(** C3, witness: the ledger already has the agent as a member. *)
Lemma registration_idempotent_witness :
  (∀ ag, res (identity (boot base)) = Ok ag →
         is_member_at ag (final (identity (boot base)))) ∧
  registrations (emitted (startup (boot base))) = 0%nat.
Proof.
  assert (Hmember : ∀ ag, res (identity (boot base)) = Ok ag →
                          is_member_at ag (final (identity (boot base)))).
  { intros ag _. reflexivity. }
  split; [exact Hmember|].
  exact (proj1 (registration_idempotent (boot (E := env) base) Hmember)).
Defined.

(** C4, witness: one new block holding the registrations of [M1] and [M2];
    the tick moves the watermark from 100 to 101 and both events are
    settled. *)
Lemma watermark_monotone_witness :
  last_block (at_block base 100) < last_block (final (tick agent (at_block base 100))) ∧
  ∀ evt, evt ∈ [registered M1 101; registered M2 101] →
    settled agent (at_block base 100) (final (tick agent (at_block base 100)))
      (emitted (tick agent (at_block base 100))) evt.
Proof.
  assert (Hadv : last_block (at_block base 100)
                 < last_block (final (tick agent (at_block base 100))))
    by (vm_compute; reflexivity).
  split; [exact Hadv|].
  destruct (proj2 (watermark_monotone agent (at_block base 100)) Hadv)
    as (current_block & w1 & events & w2 & Hhead & Hlogs & _ & Hall).
  injection Hhead as <- <-. injection Hlogs as <- _. exact Hall.
Defined.

(** C6, witness: the chain is still at the watermark. *)
Lemma idle_tick_witness :
  handle block_number (world (at_block base 101)) = (Ok 101, base) ∧
  101 ≤ last_block (at_block base 101) ∧
  emitted (tick agent (at_block base 101)) = [block_number; time_sleep 12].
Proof.
  split; [reflexivity|]. split; [cbn; lia|].
  apply (idle_tick agent (at_block base 101) 101 base); [reflexivity|cbn; lia].
Defined.

(** C7, witness: the Dstack client answers with a one-link chain. *)
Lemma short_chain_is_fatal_witness :
  length chain1 = 1%nat ∧
  emitted (agent_main 5 (boot (with_identity key64 chain1)))
    = [client_info; client_get_key "/groupauth" "ethereum"] ∧
  exit_code (res (agent_main 5 (boot (with_identity key64 chain1)))) ≠ 0.
Proof.
  split; [reflexivity|].
  destruct (short_chain_is_fatal 5 (boot (E := env) (with_identity key64 chain1))
              {| info_app_id := "0x00112233445566778899aabbccddeeff00112233" |}
              (with_identity key64 chain1)
              {| key := key64; signature_chain := chain1 |}
              (with_identity key64 chain1))
    as (_ & Hexit & Hemitted & _); [reflexivity..|].
  split; assumption.
Defined.

(** C8, witness: two runs, one with a 32-byte key and one with the same
    bytes followed by two more, derive the same public key. *)
Lemma member_id_deterministic_witness :
  res (identity (boot base)) = Ok agent ∧
  res (identity (boot (with_identity key68 chain2))) = Ok agent ∧
  my_member_id agent = keccak (derived_pubkey agent) ∧
  length (my_member_id agent) = 32%nat.
Proof.
  assert (H1 : res (identity (boot base)) = Ok agent) by (vm_compute; reflexivity).
  assert (H2 : res (identity (boot (with_identity key68 chain2))) = Ok agent)
    by (vm_compute; reflexivity).
  split; [exact H1|]. split; [exact H2|].
  destruct (member_id_deterministic (boot (E := env) base)
              (boot (E := env) (with_identity key68 chain2))
              agent agent scripted_keccak_length H1 H2 eq_refl) as (Hid & Hlen & _).
  split; assumption.
Defined.

(** C9, witness: a 34-byte key. *)
Lemma long_key_truncated_witness :
  bytes_fromhex (replace_0x key68) = Ok (replicate 32 x11 ++ [xbe; xef]) ∧
  derive_key {| key := key68; signature_chain := chain2 |} = Ok (replicate 32 x11).
Proof.
  split; [vm_compute; reflexivity|].
  apply (long_key_truncated {| key := key68; signature_chain := chain2 |}
           (replicate 32 x11 ++ [xbe; xef])).
  - vm_compute. reflexivity.
  - cbn. lia.
Defined.

End Scenarios.

(** * Further properties on the scripted environments *)

Section MoreScenarios.
Import Scripted.

(** X1, witness: the key has an odd number of hexadecimal digits. *)
Lemma identity_failure_is_fatal_witness :
  res (identity (boot (with_identity "0xabc" chain2))) = Raise ValueError ∧
  res (agent_main 4 (boot (with_identity "0xabc" chain2))) = Raise ValueError ∧
  emitted (agent_main 4 (boot (with_identity "0xabc" chain2)))
    = [client_info; client_get_key "/groupauth" "ethereum"].
Proof.
  assert (Hid : res (identity (boot (with_identity "0xabc" chain2))) = Raise ValueError)
    by (vm_compute; reflexivity).
  split; [exact Hid|].
  destruct (identity_failure_is_fatal 4 (boot (E := env) (with_identity "0xabc" chain2))
              ValueError Hid) as (Hres & _ & Hemitted & _).
  split; [exact Hres|]. rewrite Hemitted. vm_compute. reflexivity.
Defined.

(** X2, witness: the agent is not a member and its registration reverts. *)
Lemma reverted_registration_is_fatal_witness :
  res (identity (boot (Live.unregistered reverted))) = Ok agent ∧
  res (agent_main 4 (boot (Live.unregistered reverted))) = Raise AssertionError ∧
  registrations (emitted (agent_main 4 (boot (Live.unregistered reverted)))) = 1%nat.
Proof.
  assert (Hid : res (identity (boot (Live.unregistered reverted))) = Ok agent)
    by (vm_compute; reflexivity).
  split; [exact Hid|].
  destruct (reverted_registration_is_fatal 4
              (boot (E := env) (Live.unregistered reverted)) agent
              (Live.unregistered reverted) (replicate 32 xee)
              {| status := 0; gasUsed := 30000 |} (Live.unregistered reverted) Hid)
    as (Hres & Hcount & _).
  - reflexivity.
  - vm_compute. reflexivity.
  - reflexivity.
  - cbn. lia.
  - split; assumption.
Defined.

(** X4, witness: block 101 holds the registrations of [M1] and [M2]. *)
Lemma completed_tick_marks_exactly_witness :
  res (tick agent (at_block base 100)) = Ok tt ∧
  last_block (final (tick agent (at_block base 100))) = 101 ∧
  (M1 ∈ onboarded (final (tick agent (at_block base 100)))) ∧
  (M2 ∈ onboarded (final (tick agent (at_block base 100)))).
Proof.
  assert (Hres : res (tick agent (at_block base 100)) = Ok tt)
    by (vm_compute; reflexivity).
  split; [exact Hres|].
  destruct (completed_tick_marks_exactly agent (at_block base 100) 101 base
              [registered M1 101; registered M2 101] base)
    as [Hb Hmarks]; [reflexivity|cbn; lia|reflexivity|exact Hres|].
  split; [exact Hb|].
  split; apply Hmarks; right.
  - split; [exact M1_is_not_the_agent|].
    exists (registered M1 101). split; [apply list_elem_of_here|reflexivity].
  - split; [intros Heq; vm_compute in Heq; discriminate Heq|].
    exists (registered M2 101).
    split; [apply list_elem_of_further, list_elem_of_here|reflexivity].
Defined.

(** X7, witness: the process starts with the chain at block 100; three
    ticks later it has asked for blocks 101, 102 and 103. *)
Lemma older_events_never_fetched_witness :
  ranges (emitted (watcher (E := Live.env) agent 3 (Live.started 100 1000)))
    = [(101, 101); (102, 102); (103, 103)] ∧
  Forall (λ r, 100 < r.1 ∧ r.1 ≤ r.2)
    (ranges (emitted (watcher (E := Live.env) agent 3 (Live.started 100 1000)))).
Proof.
  split; [vm_compute; reflexivity|].
  apply (older_events_never_fetched (E := Live.env) agent 3 (Live.started 100 1000)
           {| Live.height := 100; Live.outage := 1000 |} 100
           {| Live.height := 101; Live.outage := 1000 |}); reflexivity.
Defined.

(** X8, witness: the provider cannot be reached when the chain is at block
    103. *)
Lemma read_failure_ends_loop_witness :
  (handle (Env := Live.env) block_number (world (Live.watching 102 103 103))).1
    = Raise (LibraryError "ConnectionError") ∧
  res (tick (E := Live.env) agent (Live.watching 102 103 103))
    = Raise (LibraryError "ConnectionError") ∧
  res (loop (E := Live.env) agent 5 (Live.watching 102 103 103))
    = Raise (LibraryError "ConnectionError").
Proof.
  assert (Hfail : (handle (Env := Live.env) block_number
                     (world (Live.watching 102 103 103))).1
                  = Raise (LibraryError "ConnectionError")) by reflexivity.
  split; [exact Hfail|].
  destruct (read_failure_ends_loop (E := Live.env) agent (Live.watching 102 103 103)
              4 (LibraryError "ConnectionError") (or_introl Hfail))
    as (Hres & _ & _ & _ & Hloop & _).
  split; assumption.
Defined.


(** X12, witness: the identity the scripted Dstack answers give. *)
Lemma proof_matches_identity_witness :
  assemble {| info_app_id := "0x00112233445566778899aabbccddeeff00112233" |}
           {| key := key64; signature_chain := chain2 |} = Ok agent ∧
  my_member_id agent = keccak (derivedCompressedPubkey (dstack_proof agent)) ∧
  length (code_id agent) = 32%nat.
Proof.
  assert (Hag : assemble
                  {| info_app_id := "0x00112233445566778899aabbccddeeff00112233" |}
                  {| key := key64; signature_chain := chain2 |} = Ok agent)
    by (vm_compute; reflexivity).
  split; [exact Hag|].
  destruct (proof_matches_identity (E := env) _ _ _ Hag) as (Hid & _).
  split; [exact Hid|]. vm_compute. reflexivity.
Defined.

End MoreScenarios.
